(** * Verification of the utilities package of apify-shared-js

  Shallow embedding of [packages/utilities/src/utilities.ts]:
  identifier generation, the forbidden-username matcher and the
  asynchronous control-flow helpers (repeating task, promise timeout,
  sequential runner, server-listen promisification).

  The strings that the package builds or matches are lists of 8-bit
  code units ([ascii]); the key that is hashed is its sequence of UTF-16
  code units.  Numbers that are used as integers are in [Z].  The
  variables that closures share are fields of a record that is threaded
  through the handlers, and what the host does (a promise settles, a
  timer fires, an event is emitted) is an event applied to that record. *)

From Stdlib Require Import ZArith NArith Ascii String List Bool Lia.
From Stdlib Require Import DecimalString.
From stdpp Require Import base gmap list strings.
Import ListNotations.

Local Open Scope Z_scope.

(** ** JavaScript strings *)

Module JsString.

Definition t := list ascii.

Definition lit (s : string) : t := list_ascii_of_string s.

(** [s.length] *)
Definition jslength (s : t) : Z := Z.of_nat (List.length s).

(** [s[i]] for an integer index: [undefined] out of range. *)
Definition index (s : t) (i : Z) : option ascii :=
  if (i <? 0) then None else nth_error s (Z.to_nat i).

(** [acc += v] where [v] is the result of indexing a string: string
    concatenation converts [undefined] to the text "undefined". *)
Definition append_indexed (acc : t) (v : option ascii) : t :=
  match v with
  | Some c => acc ++ [c]
  | None => acc ++ lit "undefined"
  end.

(** [s.substr(start, length)] (Annex B, String.prototype.substr) for
    integer arguments. *)
Definition substr (s : t) (start len : Z) : t :=
  let size := jslength s in
  let intStart := if start <? 0 then Z.max (size + start) 0 else Z.min start size in
  let intLength := Z.min (Z.max len 0) size in
  let intEnd := Z.min (intStart + intLength) size in
  if intEnd <=? intStart then []
  else firstn (Z.to_nat (intEnd - intStart)) (skipn (Z.to_nat intStart) s).

End JsString.

(** ** JavaScript integer operators *)

Module JsNum.

(** [x | 0], i.e. ToInt32 on an integral number. *)
Definition to_int32 (x : Z) : Z :=
  let m := x mod 2 ^ 32 in
  if m <? 2 ^ 31 then m else m - 2 ^ 32.

(** [a % b]: the sign of the result follows the dividend. *)
Definition rem (a b : Z) : Z := Z.rem a b.

End JsNum.

(** ** IdentityGenerator: cryptoRandomObjectId *)

Module RandomId.

Definition chars : JsString.t :=
  JsString.lit "abcdefghijklmnopqrstuvwxyzABCEDFGHIJKLMNOPQRSTUVWXYZ0123456789".

(** The body of the [for] loop, for the index [i]. *)
Definition loop_body (bytes : list Z) (i : nat) (str : JsString.t) : JsString.t :=
  JsString.append_indexed str
    (JsString.index chars
       (JsNum.rem (JsNum.to_int32 (nth i bytes 0)) (JsString.jslength chars))).

(** [for (let i = bytes.length - 1; i >= 0; i--)]: [n] is the number of
    iterations that remain, so the next index is [n - 1]. *)
Fixpoint loop (bytes : list Z) (n : nat) (str : JsString.t) : JsString.t :=
  match n with
  | O => str
  | S i => loop bytes i (loop_body bytes i str)
  end.

Definition from_bytes (bytes : list Z) : JsString.t :=
  loop bytes (List.length bytes) [].

Section WithRandomSource.
(** [crypto.randomBytes] is an effect on the state of the system's
    random generator. *)
Variable Rng : Type.
Variable randomBytes : nat -> Rng -> list Z * Rng.

Definition cryptoRandomObjectId (len : option nat) (g : Rng) : JsString.t * Rng :=
  let length := match len with Some n => n | None => 17%nat end in
  let (bytes, g') := randomBytes length g in
  (from_bytes bytes, g').

End WithRandomSource.

(** What [crypto.randomBytes(n)] promises: [n] octets. *)
Definition byte_source {Rng} (randomBytes : nat -> Rng -> list Z * Rng) : Prop :=
  forall n g, List.length (randomBytes n g).1 = n /\
              Forall (fun b => 0 <= b < 256) (randomBytes n g).1.

Definition is_alnum (c : ascii) : bool :=
  let n := nat_of_ascii c in
  ((48 <=? n) && (n <=? 57) || (65 <=? n) && (n <=? 90) || (97 <=? n) && (n <=? 122))%nat.

(** The character a byte is mapped to. *)
Definition char_of_byte (b : Z) : ascii :=
  nth (Z.to_nat (b mod 62)) chars "000"%char.

(** A linear congruential generator, used to run the function. *)
Definition lcg_next (g : Z) : Z := (g * 1103515245 + 12345) mod 2 ^ 31.

Fixpoint lcg_bytes (n : nat) (g : Z) : list Z * Z :=
  match n with
  | O => ([], g)
  | S k => let g' := lcg_next g in
           let (bs, g'') := lcg_bytes k g' in
           ((g' / 65536) mod 256 :: bs, g'')
  end.

End RandomId.

(** ** Regular expressions

    The subset of ECMAScript patterns that the package uses, with the
    backtracking semantics of the language specification (matchers take
    a continuation).  A pattern is kept as source text and compiled by
    [parse], as [new RegExp(source, flags)] does.  Characters are Latin-1
    code units; the patterns of the package are ASCII, for which
    canonicalisation under the [i] flag is ASCII upper-casing. *)

Module Regex.

Inductive class_item :=
| CChar (c : ascii)
| CRange (lo hi : ascii).

Inductive re :=
| Empty
| Char (c : ascii)
| Dot
| Class (negated : bool) (items : list class_item)
| Bol
| Eol
| Seq (r1 r2 : re)
| Alt (r1 r2 : re)
| Group (r : re)
| Repeat (min : nat) (max : option nat) (r : re).

(** *** Parsing *)

Definition code (c : ascii) : nat := nat_of_ascii c.

Definition is_digit (c : ascii) : bool := ((48 <=? code c) && (code c <=? 57))%nat.
Definition is_upper (c : ascii) : bool := ((65 <=? code c) && (code c <=? 90))%nat.
Definition is_lower (c : ascii) : bool := ((97 <=? code c) && (code c <=? 122))%nat.
Definition is_alnum (c : ascii) : bool := is_digit c || is_upper c || is_lower c.

(** Characters with a meaning of their own in a pattern. *)
Definition is_syntax_char (c : ascii) : bool :=
  existsb (Ascii.eqb c) (list_ascii_of_string "^$\.*+?()[]{}|").

Fixpoint parse_digits (acc : nat) (s : list ascii) : nat * list ascii :=
  match s with
  | c :: t => if is_digit c then parse_digits (10 * acc + (code c - 48))%nat t else (acc, s)
  | [] => (acc, s)
  end.

(** The quantifier that may follow an atom: [*], [+], [?], [{n}].  Lazy
    quantifiers and [{n,m}] are outside the subset. *)
Definition parse_quantifier (a : re) (s : list ascii) : option (re * list ascii) :=
  let not_lazy (r : re) (t : list ascii) :=
    match t with
    | "?"%char :: _ => None
    | _ => Some (r, t)
    end in
  match s with
  | "*"%char :: t => not_lazy (Repeat 0 None a) t
  | "+"%char :: t => not_lazy (Repeat 1 None a) t
  | "?"%char :: t => not_lazy (Repeat 0 (Some 1%nat) a) t
  | "{"%char :: t =>
      match t with
      | d :: _ =>
          if is_digit d then
            match parse_digits 0 t with
            | (n, "}"%char :: t') => not_lazy (Repeat n (Some n) a) t'
            | _ => None
            end
          else None
      | [] => None
      end
  | _ => Some (a, s)
  end.

(** One member of a character class: a character or an escaped
    punctuation character. *)
Definition parse_class_atom (s : list ascii) : option (ascii * list ascii) :=
  match s with
  | "\"%char :: c :: t => if is_alnum c then None else Some (c, t)
  | "\"%char :: [] => None
  | "]"%char :: _ => None
  | c :: t => Some (c, t)
  | [] => None
  end.

(** The members of a class, up to and including the closing bracket. *)
Fixpoint parse_class_items (fuel : nat) (s : list ascii) : option (list class_item * list ascii) :=
  match fuel with
  | O => None
  | S f =>
      match s with
      | "]"%char :: t => Some ([], t)
      | _ =>
          match parse_class_atom s with
          | Some (lo, "-"%char :: t) =>
              match t with
              | "]"%char :: t' => Some ([CChar lo; CChar "-"%char], t')
              | _ =>
                  match parse_class_atom t with
                  | Some (hi, t') =>
                      if (code hi <? code lo)%nat then None
                      else
                        match parse_class_items f t' with
                        | Some (items, rest) => Some (CRange lo hi :: items, rest)
                        | None => None
                        end
                  | None => None
                  end
              end
          | Some (c, t) =>
              match parse_class_items f t with
              | Some (items, rest) => Some (CChar c :: items, rest)
              | None => None
              end
          | None => None
          end
      end
  end.

Definition parse_class (s : list ascii) : option (re * list ascii) :=
  let (negated, body) :=
    match s with
    | "^"%char :: t => (true, t)
    | _ => (false, s)
    end in
  match parse_class_items (S (List.length body)) body with
  | Some (items, rest) => Some (Class negated items, rest)
  | None => None
  end.

(** Disjunction, alternative, term and atom of the pattern grammar. *)
Fixpoint parse_disjunction (fuel : nat) (s : list ascii) : option (re * list ascii) :=
  match fuel with
  | O => None
  | S f =>
      match parse_alternative f s with
      | Some (r, "|"%char :: t) =>
          match parse_disjunction f t with
          | Some (r', rest) => Some (Alt r r', rest)
          | None => None
          end
      | other => other
      end
  end
with parse_alternative (fuel : nat) (s : list ascii) : option (re * list ascii) :=
  match fuel with
  | O => None
  | S f =>
      match s with
      | [] => Some (Empty, s)
      | "|"%char :: _ => Some (Empty, s)
      | ")"%char :: _ => Some (Empty, s)
      | _ =>
          match parse_term f s with
          | Some (t, rest) =>
              match parse_alternative f rest with
              | Some (Empty, rest') => Some (t, rest')
              | Some (r, rest') => Some (Seq t r, rest')
              | None => None
              end
          | None => None
          end
      end
  end
with parse_term (fuel : nat) (s : list ascii) : option (re * list ascii) :=
  match fuel with
  | O => None
  | S f =>
      match s with
      | "^"%char :: t => Some (Bol, t)
      | "$"%char :: t => Some (Eol, t)
      | _ =>
          match parse_atom f s with
          | Some (a, rest) => parse_quantifier a rest
          | None => None
          end
      end
  end
with parse_atom (fuel : nat) (s : list ascii) : option (re * list ascii) :=
  match fuel with
  | O => None
  | S f =>
      match s with
      | "("%char :: t =>
          match parse_disjunction f t with
          | Some (r, ")"%char :: rest) => Some (Group r, rest)
          | _ => None
          end
      | "["%char :: t => parse_class t
      | "."%char :: t => Some (Dot, t)
      | "\"%char :: c :: t => if is_alnum c then None else Some (Char c, t)
      | c :: t => if is_syntax_char c then None else Some (Char c, t)
      | [] => None
      end
  end.

Definition parse (pattern : list ascii) : option re :=
  match parse_disjunction (4 * S (List.length pattern)) pattern with
  | Some (r, []) => Some r
  | _ => None
  end.

(** *** Matching *)

Definition upper (c : ascii) : ascii :=
  if is_lower c then ascii_of_nat (code c - 32) else c.
Definition lower (c : ascii) : ascii :=
  if is_upper c then ascii_of_nat (code c + 32) else c.

(** LineTerminator code units, which [.] does not match. *)
Definition is_line_terminator (c : ascii) : bool :=
  ((code c =? 10) || (code c =? 13))%nat.

Definition in_range (lo hi c : ascii) : bool :=
  ((code lo <=? code c) && (code c <=? code hi))%nat.

Section Matcher.
Variable ignoreCase : bool.
Context {R : Type}.

(** A continuation receives the end index of the match so far and the
    rest of the input. *)
Definition cont := nat -> list ascii -> option R.

(** Canonicalize(a) = Canonicalize(b). *)
Definition canon_eq (a b : ascii) : bool :=
  if ignoreCase then Ascii.eqb (upper a) (upper b) else Ascii.eqb a b.

(** Whether the class member contains a character whose canonical form
    is that of [c]. *)
Definition class_item_matches (c : ascii) (it : class_item) : bool :=
  match it with
  | CChar d => canon_eq d c
  | CRange lo hi =>
      in_range lo hi c
      || (ignoreCase && (in_range lo hi (upper c) || in_range lo hi (lower c)))
  end.

(** CharacterSetMatcher: consume one character that satisfies [p]. *)
Definition char_matcher (p : ascii -> bool) (pos : nat) (s : list ascii) (k : cont) : option R :=
  match s with
  | c :: t => if p c then k (S pos) t else None
  | [] => None
  end.

(** RepeatMatcher for a greedy quantifier: [mr] matches the atom. *)
Fixpoint repeat_matcher (fuel : nat) (mr : nat -> list ascii -> cont -> option R)
    (min : nat) (max : option nat) (pos : nat) (s : list ascii) (k : cont) : option R :=
  match fuel with
  | O => None
  | S f =>
      match max with
      | Some O => k pos s
      | _ =>
          let d : cont := fun p s' =>
            if ((min =? 0) && (p =? pos))%nat then None
            else repeat_matcher f mr (Nat.pred min) (option_map Nat.pred max) p s' k in
          if (min =? 0)%nat then
            match mr pos s d with
            | Some z => Some z
            | None => k pos s
            end
          else mr pos s d
      end
  end.

Fixpoint m (r : re) (pos : nat) (s : list ascii) (k : cont) {struct r} : option R :=
  match r with
  | Empty => k pos s
  | Char c => char_matcher (canon_eq c) pos s k
  | Dot => char_matcher (fun d => negb (is_line_terminator d)) pos s k
  | Class negated items =>
      char_matcher (fun d => xorb negated (existsb (class_item_matches d) items)) pos s k
  | Bol => if (pos =? 0)%nat then k pos s else None
  | Eol => match s with
           | [] => k pos s
           | _ :: _ => None
           end
  | Seq r1 r2 => m r1 pos s (fun p s' => m r2 p s' k)
  | Alt r1 r2 =>
      match m r1 pos s k with
      | Some z => Some z
      | None => m r2 pos s k
      end
  | Group r' => m r' pos s k
  | Repeat min max r' =>
      repeat_matcher (min + List.length s + 2) (m r') min max pos s k
  end.

End Matcher.

(** A compiled regular expression object with its flags. *)
Record RegExp := {
  source : re;
  ignoreCase : bool;
  global : bool;
}.

(** [new RegExp(pattern, flags)]; [None] is a SyntaxError. *)
Definition RegExp_new (pattern flags : list ascii) : option RegExp :=
  if forallb (fun c => Ascii.eqb c "i" || Ascii.eqb c "g") flags then
    match parse pattern with
    | Some r => Some {| source := r;
                        ignoreCase := existsb (Ascii.eqb "i") flags;
                        global := existsb (Ascii.eqb "g") flags |}
    | None => None
    end
  else None.

(** A match that starts at index [pos], where [s] is the input from
    [pos] on: the end index and the input after the match. *)
Definition match_at (rx : RegExp) (pos : nat) (s : list ascii) : option (nat * list ascii) :=
  m (ignoreCase rx) (source rx) pos s (fun p s' => Some (p, s')).

(** RegExpBuiltinExec from [lastIndex = pos]: the first index at which
    the pattern matches, with the end of that match. *)
Fixpoint exec_from (rx : RegExp) (pos : nat) (s : list ascii) : option (nat * nat) :=
  match match_at rx pos s with
  | Some (e, _) => Some (pos, e)
  | None =>
      match s with
      | [] => None
      | _ :: t => exec_from rx (S pos) t
      end
  end.

(** [!!str.match(rx)] for a regular expression without the [g] flag. *)
Definition matches (rx : RegExp) (str : list ascii) : bool :=
  match exec_from rx 0 str with
  | Some _ => true
  | None => false
  end.

(** [str.replace(rx, replacement)] for a global [rx] and a replacement
    text without [$]: every match, found from left to right, is replaced;
    after an empty match the search moves on by one character. *)
Fixpoint replace_from (fuel : nat) (rx : RegExp) (replacement : list ascii)
    (pos : nat) (s : list ascii) : list ascii :=
  match fuel with
  | O => s
  | S f =>
      let skip :=
        match s with
        | [] => []
        | c :: t => c :: replace_from f rx replacement (S pos) t
        end in
      match match_at rx pos s with
      | Some (e, s') =>
          if (e =? pos)%nat then replacement ++ skip
          else replacement ++ replace_from f rx replacement e s'
      | None => skip
      end
  end.

Definition replace_all (rx : RegExp) (replacement : list ascii) (str : list ascii) : list ascii :=
  replace_from (S (List.length str)) rx replacement 0 str.

Definition rx_of (pattern flags : string) : option RegExp :=
  RegExp_new (JsString.lit pattern) (JsString.lit flags).

Definition test (pattern flags input : string) : option bool :=
  option_map (fun rx => matches rx (JsString.lit input)) (rx_of pattern flags).

End Regex.

(** ** UsernamePolicy: isForbiddenUsername *)

Module Username.

(** [ANONYMOUS_USERNAME] of the constants package. *)
Definition ANONYMOUS_USERNAME : string := "anonymous".

(** List of forbidden usernames: literal names and pattern fragments. *)
Definition FORBIDDEN_USERNAMES_REGEXPS : list string := [
  (* Meteor app routes *)
  "page-not-found"; "docs"; "terms-of-use"; "about"; "pricing"; "privacy-policy"; "customers";
  "request-form"; "request-solution"; "release-notes"; "jobs"; "api-reference"; "video-tutorials";
  "acts"; "key-value-stores"; "schedules"; "account"; "sign-up"; "sign-in-discourse"; "admin";
  "documentation"; "change-password"; "enroll-account"; "forgot-password"; "reset-password";
  "sign-in"; "verify-email"; "live-status"; "browser-info"; "webhooks"; "health-check"; "api";
  "change-log"; "dashboard"; "community"; "crawlers"; "ext";

  (* Various strings *)
  "admin"; "administration"; "crawler"; "act"; "library"; "lib"; "apifier"; "team";
  "contact"; "doc"; "documentation"; "for-business"; "for-developers"; "developers"; "business";
  "integrations"; "job"; "setting"; "settings"; "privacy"; "policy"; "assets"; "help";
  "config"; "configuration"; "terms"; "hiring"; "hire"; "status"; "status-page"; "solutions";
  "support"; "market"; "marketplace"; "download"; "downloads"; "username"; "users"; "user";
  "login"; "logout"; "signin"; "sign"; "signup"; "sign-out"; "signout"; "plugins"; "plug-ins";
  "reset"; "password"; "passwords"; "square"; "profile-photos"; "profiles"; "true"; "false";
  "js"; "css"; "img"; "images"; "image"; "partials"; "fonts"; "font"; "dynamic_templates";
  "app"; "schedules"; "community"; "storage"; "storages"; "account"; "node_modules"; "bower_components";
  "video"; "knowledgebase"; "forum"; "customers"; "blog"; "health-check"; "health"; "anim";
  "forum_topics.json"; "forum_categories.json"; "me"; "you"; "him"; "she"; "it"; "external";
  "actor"; "crawler"; "scheduler"; "api"; "sdk"; "puppeteer"; "webdriver";
  "selenium"; "(selenium.*webdriver)"; "undefined"; "page-analyzer"; "wp-login.php";
  "welcome.action"; "echo"; "proxy"; "super-proxy"; "gdpr"; "case-studies"; "use-cases"; "how-to";
  "kb"; "cookies"; "cookie-policy"; "cookies-policy"; "powered-by"; "run"; "runs"; "actor"; "actors";
  "act"; "acts"; "success-stories"; "roadmap"; "join-marketplace"; "presskit"; "press-kit"; "covid-19";
  "covid"; "covid19"; "matfyz"; "ideas"; "public-actors"; "resources"; "partners"; "affiliate";
  "industries"; "web-scraping"; "custom-solutions"; "solution-provider";

  (* Special files *)
  "index"; "index\.html"; "(favicon\.[a-z]+)"; "BingSiteAuth.xml"; "(google.+\.html)"; "robots\.txt";
  "(sitemap\.[a-z]+)"; "(apple-touch-icon.*)"; "security-whitepaper\.pdf";

  (* All hidden files *)
  "(\..*)";

  (* File starting with xxx- *)
  "(xxx-.*)";

  (* Strings not starting with letter or number *)
  "([^0-9a-z].*)";

  (* Strings not ending with letter or number *)
  "(.*[^0-9a-z])";

  (* Strings where there's more than one underscore, comma or dash in row *)
  "(.*[_.\-]{2}.*)";

  (* Reserved usernames from https://github.com/shouldbee/reserved-usernames/blob/master/reserved-usernames.json *)
  "0"; "about"; "access"; "account"; "accounts"; "activate"; "activities"; "activity"; "ad"; "add";
  "address"; "adm"; "admin"; "administration"; "administrator"; "ads"; "adult"; "advertising";
  "affiliate"; "affiliates"; "ajax"; "all"; "alpha"; "analysis"; "analytics"; "android"; "anon";
  "anonymous"; "api"; "app"; "apps"; "archive"; "archives"; "article"; "asct"; "asset"; "atom";
  "auth"; "authentication"; "avatar"; "backup"; "balancer-manager"; "banner"; "banners"; "beta";
  "billing"; "bin"; "blog"; "blogs"; "board"; "book"; "bookmark"; "bot"; "bots"; "bug"; "business";
  "cache"; "cadastro"; "calendar"; "call"; "campaign"; "cancel"; "captcha"; "career"; "careers";
  "cart"; "categories"; "category"; "cgi"; "cgi-bin"; "changelog"; "chat"; "check"; "checking";
  "checkout"; "client"; "cliente"; "clients"; "code"; "codereview"; "comercial"; "comment";
  "comments"; "communities"; "community"; "company"; "compare"; "compras"; "config"; "configuration";
  "connect"; "contact"; "contact-us"; "contact_us"; "contactus"; "contest"; "contribute"; "corp";
  "create"; "css"; "dashboard"; "data"; "db"; "default"; "delete"; "demo"; "design"; "designer";
  "destroy"; "dev"; "devel"; "developer"; "developers"; "diagram"; "diary"; "dict"; "dictionary";
  "die"; "dir"; "direct_messages"; "directory"; "dist"; "doc"; "docs"; "documentation"; "domain";
  "download"; "downloads"; "ecommerce"; "edit"; "editor"; "edu"; "education"; "email"; "employment";
  "empty"; "end"; "enterprise"; "entries"; "entry"; "error"; "errors"; "eval"; "event"; "exit";
  "explore"; "facebook"; "faq"; "favorite"; "favorites"; "feature"; "features"; "feed"; "feedback";
  "feeds"; "file"; "files"; "first"; "flash"; "fleet"; "fleets"; "flog"; "follow"; "followers";
  "following"; "forgot"; "form"; "forum"; "forums"; "founder"; "free"; "friend"; "friends"; "ftp";
  "gadget"; "gadgets"; "game"; "games"; "get"; "gift"; "gifts"; "gist"; "github"; "graph"; "group";
  "groups"; "guest"; "guests"; "help"; "home"; "homepage"; "host"; "hosting"; "hostmaster";
  "hostname"; "howto"; "hpg"; "html"; "http"; "httpd"; "https"; "i"; "iamges"; "icon"; "icons";
  "id"; "idea"; "ideas"; "image"; "images"; "imap"; "img"; "index"; "indice"; "info"; "information";
  "inquiry"; "instagram"; "intranet"; "invitations"; "invite"; "ipad"; "iphone"; "irc"; "is";
  "issue"; "issues"; "it"; "item"; "items"; "java"; "javascript"; "job"; "jobs"; "join"; "js";
  "json"; "jump"; "knowledgebase"; "language"; "languages"; "last"; "ldap-status"; "legal"; "license";
  "link"; "links"; "linux"; "list"; "lists"; "log"; "log-in"; "log-out"; "log_in"; "log_out";
  "login"; "logout"; "logs"; "m"; "mac"; "mail"; "mail1"; "mail2"; "mail3"; "mail4"; "mail5";
  "mailer"; "mailing"; "maintenance"; "manager"; "manual"; "map"; "maps"; "marketing"; "master";
  "me"; "media"; "member"; "members"; "message"; "messages"; "messenger"; "microblog"; "microblogs";
  "mine"; "mis"; "mob"; "mobile"; "movie"; "movies"; "mp3"; "msg"; "msn"; "music"; "musicas"; "mx";
  "my"; "mysql"; "name"; "named"; "nan"; "navi"; "navigation"; "net"; "network"; "new"; "news";
  "newsletter"; "nick"; "nickname"; "notes"; "noticias"; "notification"; "notifications"; "notify";
  "ns"; "ns1"; "ns10"; "ns2"; "ns3"; "ns4"; "ns5"; "ns6"; "ns7"; "ns8"; "ns9"; "null"; "oauth";
  "oauth_clients"; "offer"; "offers"; "official"; "old"; "online"; "openid"; "operator"; "order";
  "orders"; "organization"; "organizations"; "overview"; "owner"; "owners"; "page"; "pager";
  "pages"; "panel"; "password"; "payment"; "perl"; "phone"; "photo"; "photoalbum"; "photos"; "php";
  "phpmyadmin"; "phppgadmin"; "phpredisadmin"; "pic"; "pics"; "ping"; "plan"; "plans"; "plugin";
  "plugins"; "policy"; "pop"; "pop3"; "popular"; "portal"; "post"; "postfix"; "postmaster"; "posts";
  "pr"; "premium"; "press"; "price"; "pricing"; "privacy"; "privacy-policy"; "privacy_policy";
  "privacypolicy"; "private"; "product"; "products"; "profile"; "project"; "projects"; "promo";
  "pub"; "public"; "purpose"; "put"; "python"; "query"; "random"; "ranking"; "read"; "readme";
  "recent"; "recruit"; "recruitment"; "register"; "registration"; "release"; "remove"; "replies";
  "report"; "reports"; "repositories"; "repository"; "req"; "request"; "requests"; "reset"; "roc";
  "root"; "rss"; "ruby"; "rule"; "sag"; "sale"; "sales"; "sample"; "samples"; "save"; "school";
  "script"; "scripts"; "search"; "secure"; "security"; "self"; "send"; "server"; "server-info";
  "server-status"; "service"; "services"; "session"; "sessions"; "setting"; "settings"; "setup";
  "share"; "shop"; "show"; "sign-in"; "sign-up"; "sign_in"; "sign_up"; "signin"; "signout"; "signup";
  "site"; "sitemap"; "sites"; "smartphone"; "smtp"; "soporte"; "source"; "spec"; "special"; "sql";
  "src"; "ssh"; "ssl"; "ssladmin"; "ssladministrator"; "sslwebmaster"; "staff"; "stage"; "staging";
  "start"; "stat"; "state"; "static"; "stats"; "status"; "store"; "stores"; "stories"; "style";
  "styleguide"; "stylesheet"; "stylesheets"; "subdomain"; "subscribe"; "subscriptions"; "suporte";
  "support"; "svn"; "swf"; "sys"; "sysadmin"; "sysadministrator"; "system"; "tablet"; "tablets";
  "tag"; "talk"; "task"; "tasks"; "team"; "teams"; "tech"; "telnet"; "term"; "terms";
  "terms-of-service"; "terms_of_service"; "termsofservice"; "test"; "test1"; "test2"; "test3";
  "teste"; "testing"; "tests"; "theme"; "themes"; "thread"; "threads"; "tmp"; "todo"; "tool";
  "tools"; "top"; "topic"; "topics"; "tos"; "tour"; "translations"; "trends"; "tutorial"; "tux";
  "tv"; "twitter"; "undef"; "unfollow"; "unsubscribe"; "update"; "upload"; "uploads"; "url";
  "usage"; "user"; "username"; "users"; "usuario"; "vendas"; "ver"; "version"; "video"; "videos";
  "visitor"; "watch"; "weather"; "web"; "webhook"; "webhooks"; "webmail"; "webmaster"; "website";
  "websites"; "welcome"; "widget"; "widgets"; "wiki"; "win"; "windows"; "word"; "work"; "works";
  "workshop"; "ww"; "wws"; "www"; "www1"; "www2"; "www3"; "www4"; "www5"; "www6"; "www7"; "wwws";
  "wwww"; "xfn"; "xml"; "xmpp"; "xpg"; "xxx"; "yaml"; "year"; "yml"; "you"; "yourdomain"; "yourname";
  "yoursite"; "yourusername"

]%string.

(** [Array.prototype.join] *)
Fixpoint join (sep : string) (l : list string) : string :=
  match l with
  | [] => ""
  | [x] => x
  | x :: t => x ++ sep ++ join sep t
  end.

Definition FORBIDDEN_REGEXP_source : string :=
  "^(" ++ ANONYMOUS_USERNAME ++ "|" ++ join "|" FORBIDDEN_USERNAMES_REGEXPS ++ ")$".

(** Regex matching forbidden usernames ([None]: the pattern does not
    compile and loading the module throws). *)
Definition FORBIDDEN_REGEXP : option Regex.RegExp :=
  Regex.rx_of FORBIDDEN_REGEXP_source "i".

(** [!!username.match(FORBIDDEN_REGEXP)] *)
Definition isForbiddenUsername (username : JsString.t) : option bool :=
  option_map (fun rx => Regex.matches rx username) FORBIDDEN_REGEXP.

End Username.

(** ** UTF-8 encoding of a JavaScript string

    Here a string is its sequence of UTF-16 code units.  Surrogate pairs
    are combined; a lone surrogate is encoded as U+FFFD, as Node's string
    to buffer conversion does. *)

Module Utf8.

Definition is_high_surrogate (u : Z) : bool := (0xD800 <=? u) && (u <=? 0xDBFF).
Definition is_low_surrogate (u : Z) : bool := (0xDC00 <=? u) && (u <=? 0xDFFF).

Fixpoint code_points (units : list Z) : list Z :=
  match units with
  | [] => []
  | u :: t =>
      if is_high_surrogate u then
        match t with
        | lo :: t' =>
            if is_low_surrogate lo
            then (0x10000 + (u - 0xD800) * 0x400 + (lo - 0xDC00)) :: code_points t'
            else 0xFFFD :: code_points t
        | [] => [0xFFFD]
        end
      else if is_low_surrogate u then 0xFFFD :: code_points t
      else u :: code_points t
  end.

Definition encode_code_point (cp : Z) : list Z :=
  if cp <? 0x80 then [cp]
  else if cp <? 0x800 then
    [Z.lor 0xC0 (Z.shiftr cp 6); Z.lor 0x80 (Z.land cp 0x3F)]
  else if cp <? 0x10000 then
    [Z.lor 0xE0 (Z.shiftr cp 12);
     Z.lor 0x80 (Z.land (Z.shiftr cp 6) 0x3F);
     Z.lor 0x80 (Z.land cp 0x3F)]
  else
    [Z.lor 0xF0 (Z.shiftr cp 18);
     Z.lor 0x80 (Z.land (Z.shiftr cp 12) 0x3F);
     Z.lor 0x80 (Z.land (Z.shiftr cp 6) 0x3F);
     Z.lor 0x80 (Z.land cp 0x3F)].

Definition encode (units : list Z) : list Z :=
  flat_map encode_code_point (code_points units).

(** The code units of a string of Latin-1 characters. *)
Definition units_of (s : JsString.t) : list Z :=
  map (fun c => Z.of_nat (nat_of_ascii c)) s.

End Utf8.

(** ** SHA-256 (FIPS 180-4) over 32-bit words kept in [Z] *)

Module Sha256.

Definition w32 (x : Z) : Z := x mod 2 ^ 32.
Definition add32 (x y : Z) : Z := w32 (x + y).
Definition rotr (n x : Z) : Z := w32 (Z.lor (Z.shiftr x n) (Z.shiftl x (32 - n))).
Definition shr (n x : Z) : Z := Z.shiftr x n.
Definition not32 (x : Z) : Z := Z.lxor x 0xFFFFFFFF.

Definition Ch (x y z : Z) : Z := Z.lxor (Z.land x y) (Z.land (not32 x) z).
Definition Maj (x y z : Z) : Z :=
  Z.lxor (Z.lxor (Z.land x y) (Z.land x z)) (Z.land y z).
Definition Sigma0 (x : Z) : Z := Z.lxor (Z.lxor (rotr 2 x) (rotr 13 x)) (rotr 22 x).
Definition Sigma1 (x : Z) : Z := Z.lxor (Z.lxor (rotr 6 x) (rotr 11 x)) (rotr 25 x).
Definition sigma0 (x : Z) : Z := Z.lxor (Z.lxor (rotr 7 x) (rotr 18 x)) (shr 3 x).
Definition sigma1 (x : Z) : Z := Z.lxor (Z.lxor (rotr 17 x) (rotr 19 x)) (shr 10 x).

(** The constants are taken from the fractional parts of the square and
    cube roots of the first primes, as the standard defines them. *)
Definition is_prime (n : Z) : bool :=
  (1 <? n) && forallb (fun d => negb (n mod Z.of_nat d =? 0)) (seq 2 (Z.to_nat n - 2)).

Definition first_primes (count : nat) : list Z :=
  firstn count (List.filter is_prime (map Z.of_nat (seq 2 310))).

(** The integer cube root, by bisection: the largest [r] below [2 ^ bits]
    with [r ^ 3 <= n]. *)
Fixpoint cube_root (bits : nat) (n acc : Z) : Z :=
  match bits with
  | O => acc
  | S b =>
      let candidate := acc + 2 ^ Z.of_nat b in
      cube_root b n (if candidate ^ 3 <=? n then candidate else acc)
  end.

Definition frac_sqrt (p : Z) : Z := w32 (Z.sqrt (p * 2 ^ 64)).
Definition frac_cbrt (p : Z) : Z := w32 (cube_root 36 (p * 2 ^ 96) 0).

Definition K : list Z := Eval vm_compute in map frac_cbrt (first_primes 64).

Record state := {
  ha : Z; hb : Z; hc : Z; hd : Z; he : Z; hf : Z; hg : Z; hh : Z;
}.

Definition state_of_words (ws : list Z) : state :=
  {| ha := nth 0 ws 0; hb := nth 1 ws 0; hc := nth 2 ws 0; hd := nth 3 ws 0;
     he := nth 4 ws 0; hf := nth 5 ws 0; hg := nth 6 ws 0; hh := nth 7 ws 0 |}.

Definition H0 : state := Eval vm_compute in state_of_words (map frac_sqrt (first_primes 8)).

Definition be32 (w : Z) : list Z :=
  [Z.land (Z.shiftr w 24) 0xFF; Z.land (Z.shiftr w 16) 0xFF;
   Z.land (Z.shiftr w 8) 0xFF; Z.land w 0xFF].

Definition be64 (n : Z) : list Z := be32 (Z.shiftr n 32) ++ be32 (Z.land n 0xFFFFFFFF).

(** Padding to a multiple of 64 bytes: one 1 bit, zeros, the bit length. *)
Definition pad (msg : list Z) : list Z :=
  let len := Z.of_nat (List.length msg) in
  msg ++ [0x80] ++ repeat 0 (Z.to_nat ((55 - len) mod 64)) ++ be64 (8 * len).

Fixpoint words_of (fuel : nat) (bytes : list Z) : list Z :=
  match fuel, bytes with
  | S k, b0 :: b1 :: b2 :: b3 :: t =>
      (Z.shiftl b0 24 + Z.shiftl b1 16 + Z.shiftl b2 8 + b3) :: words_of k t
  | _, _ => []
  end.

Fixpoint blocks_of (fuel : nat) (bytes : list Z) : list (list Z) :=
  match fuel, bytes with
  | S k, _ :: _ => words_of 16 (firstn 64 bytes) :: blocks_of k (skipn 64 bytes)
  | _, _ => []
  end.

(** The message schedule: [n] more words after the ones in [w]. *)
Fixpoint schedule (n : nat) (w : list Z) : list Z :=
  match n with
  | O => w
  | S k =>
      let t := List.length w in
      let at_ (i : nat) := nth (t - i) w 0 in
      schedule k
        (w ++ [add32 (add32 (sigma1 (at_ 2%nat)) (at_ 7%nat))
                     (add32 (sigma0 (at_ 15%nat)) (at_ 16%nat))])
  end.

Definition round (s : state) (kw : Z * Z) : state :=
  let t1 := add32 (add32 (add32 (hh s) (Sigma1 (he s))) (Ch (he s) (hf s) (hg s)))
                  (add32 (fst kw) (snd kw)) in
  let t2 := add32 (Sigma0 (ha s)) (Maj (ha s) (hb s) (hc s)) in
  {| ha := add32 t1 t2; hb := ha s; hc := hb s; hd := hc s;
     he := add32 (hd s) t1; hf := he s; hg := hf s; hh := hg s |}.

Definition compress (s : state) (block : list Z) : state :=
  let r := fold_left round (combine K (schedule 48 block)) s in
  {| ha := add32 (ha s) (ha r); hb := add32 (hb s) (hb r);
     hc := add32 (hc s) (hc r); hd := add32 (hd s) (hd r);
     he := add32 (he s) (he r); hf := add32 (hf s) (hf r);
     hg := add32 (hg s) (hg r); hh := add32 (hh s) (hh r) |}.

Definition digest_bytes (s : state) : list Z :=
  be32 (ha s) ++ be32 (hb s) ++ be32 (hc s) ++ be32 (hd s) ++
  be32 (he s) ++ be32 (hf s) ++ be32 (hg s) ++ be32 (hh s).

Definition sha256 (msg : list Z) : list Z :=
  let padded := pad msg in
  digest_bytes (fold_left compress (blocks_of (List.length padded) padded) H0).

Definition hex_of (bytes : list Z) : JsString.t :=
  flat_map (fun b => [nth (Z.to_nat (b / 16)) (JsString.lit "0123456789abcdef") "?"%char;
                      nth (Z.to_nat (b mod 16)) (JsString.lit "0123456789abcdef") "?"%char]) bytes.

End Sha256.

(** ** Base64 (RFC 4648, with padding) *)

Module Base64.

Definition alphabet : JsString.t :=
  JsString.lit "ABCDEFGHIJKLMNOPQRSTUVWXYZabcdefghijklmnopqrstuvwxyz0123456789+/".

Definition sextet (n : Z) : ascii := nth (Z.to_nat n) alphabet "="%char.

Fixpoint encode (bytes : list Z) : JsString.t :=
  match bytes with
  | [] => []
  | [a] =>
      [sextet (Z.shiftr a 2); sextet (Z.shiftl (Z.land a 3) 4); "="%char; "="%char]
  | [a; b] =>
      [sextet (Z.shiftr a 2);
       sextet (Z.lor (Z.shiftl (Z.land a 3) 4) (Z.shiftr b 4));
       sextet (Z.shiftl (Z.land b 15) 2); "="%char]
  | a :: b :: c :: t =>
      sextet (Z.shiftr a 2)
      :: sextet (Z.lor (Z.shiftl (Z.land a 3) 4) (Z.shiftr b 4))
      :: sextet (Z.lor (Z.shiftl (Z.land b 15) 2) (Z.shiftr c 6))
      :: sextet (Z.land c 63)
      :: encode t
  end.

End Base64.

(** ** IdentityGenerator: deterministicUniqueId *)

Module DeterministicId.

(** The [Hash] object of Node's crypto module: the algorithm and the
    bytes it has been fed. *)
Record Hash := {
  algorithm : string;
  buffer : list Z;
}.

Definition createHash (alg : string) : Hash := {| algorithm := alg; buffer := [] |}.

(** [hash.update(data)] for a string: its UTF-8 encoding is appended. *)
Definition update (data : list Z) (h : Hash) : Hash :=
  {| algorithm := algorithm h; buffer := buffer h ++ Utf8.encode data |}.

(** [hash.digest(encoding)]; only what the package asks for is modelled,
    anything else throws. *)
Definition digest (encoding : string) (h : Hash) : option JsString.t :=
  if String.eqb (algorithm h) "sha256" && String.eqb encoding "base64"
  then Some (Base64.encode (Sha256.sha256 (buffer h)))
  else None.

(** The regular expression literal [/(\+|\/|=)/g]. *)
Definition FILLER_REGEXP : Regex.RegExp :=
  {| Regex.source :=
       Regex.Group (Regex.Alt (Regex.Char "+") (Regex.Alt (Regex.Char "/") (Regex.Char "=")));
     Regex.ignoreCase := false;
     Regex.global := true |}.

Definition deterministicUniqueId (key : list Z) (length : option Z) : option JsString.t :=
  let length := match length with Some n => n | None => 17 end in
  option_map
    (fun b64 =>
       JsString.substr (Regex.replace_all FILLER_REGEXP (JsString.lit "x") b64) 0 length)
    (digest "base64" (update key (createHash "sha256"))).

(** The function as the specification words it: hash the UTF-8 encoding
    of the key, base64-encode the digest, replace each of [+], [/], [=] by
    the filler character and keep the first [length] characters. *)
Definition is_filled (c : ascii) : bool :=
  Ascii.eqb c "+" || Ascii.eqb c "/" || Ascii.eqb c "=".

Definition fill (c : ascii) : ascii := if is_filled c then "x"%char else c.

Definition spec_deterministicUniqueId (key : list Z) (length : Z) : JsString.t :=
  firstn (Z.to_nat length) (map fill (Base64.encode (Sha256.sha256 (Utf8.encode key)))).

End DeterministicId.

(** ** JavaScript values, completions and promises *)

Module Js.

Inductive value :=
| VUndefined
| VNull
| VBool (b : bool)
| VNumber (n : Z)
| VNaN
| VString (s : string)
| VError (message : string)   (* an [Error] object *)
| VObject (id : nat).         (* any other object *)

(** ToBoolean *)
Definition truthy (v : value) : bool :=
  match v with
  | VUndefined | VNull | VNaN => false
  | VBool b => b
  | VNumber n => negb (n =? 0)
  | VString s => negb (String.eqb s "")
  | VError _ | VObject _ => true
  end.

(** How a call that works on a state [S] completes: normally, or by
    throwing; the effects made before the throw stay. *)
Inductive result (S : Type) :=
| Ok (s : S)
| Threw (e : value) (s : S).
Arguments Ok {S} s.
Arguments Threw {S} e s.

Definition bind {S : Type} (r : result S) (k : S -> result S) : result S :=
  match r with
  | Ok s => k s
  | Threw e s => Threw e s
  end.

Definition state_of {S : Type} (r : result S) : S :=
  match r with
  | Ok s => s
  | Threw _ s => s
  end.

(** The state of a promise and its two resolving functions, which do
    nothing once the promise is settled. *)
Inductive promise :=
| Pending
| Fulfilled (v : value)
| Rejected (e : value).

Definition resolve (v : value) (p : promise) : promise :=
  match p with
  | Pending => Fulfilled v
  | _ => p
  end.

Definition reject (e : value) (p : promise) : promise :=
  match p with
  | Pending => Rejected e
  | _ => p
  end.

(** A call of one of the resolving functions, as the code makes it. *)
Inductive settle_call :=
| Resolve (v : value)
| Reject (e : value).

(** The timers of the host: the pending ones with their delay, and the
    next identifier ([setTimeout] never hands out an identifier twice). *)
Record timers := {
  pending : gmap nat Z;
  next_id : nat;
}.

Definition no_timers (first_id : nat) : timers := {| pending := ∅; next_id := first_id |}.

Definition setTimeout (delay : Z) (t : timers) : nat * timers :=
  (next_id t, {| pending := <[next_id t := delay]> (pending t); next_id := S (next_id t) |}).

(** [clearTimeout(id)]; [None] is [undefined], which clears nothing, as
    does an identifier that is no longer pending. *)
Definition clearTimeout (id : option nat) (t : timers) : timers :=
  match id with
  | Some i => {| pending := delete i (pending t); next_id := next_id t |}
  | None => t
  end.

(** The host takes a timer that is due off the pending ones to run it. *)
Definition fire (id : nat) (t : timers) : option timers :=
  match pending t !! id with
  | Some _ => Some {| pending := delete id (pending t); next_id := next_id t |}
  | None => None
  end.

End Js.

(** ** PromiseGuard: timeoutPromise *)

Module PromiseGuard.
Import Js.

(** The variables the executor's closures share, the host's timers, the
    returned promise and the calls made to its resolving functions. *)
Record state := {
  errorMessage : string;
  timeout : option nat;
  hasFulfilled : bool;
  host : timers;
  returned : promise;
  settle_calls : list settle_call;
  operation_observed : bool;
}.

Definition set_timeout (v : option nat) (st : state) : state :=
  {| errorMessage := errorMessage st; timeout := v; hasFulfilled := hasFulfilled st;
     host := host st; returned := returned st; settle_calls := settle_calls st;
     operation_observed := operation_observed st |}.

Definition set_hasFulfilled (v : bool) (st : state) : state :=
  {| errorMessage := errorMessage st; timeout := timeout st; hasFulfilled := v;
     host := host st; returned := returned st; settle_calls := settle_calls st;
     operation_observed := operation_observed st |}.

Definition set_host (v : timers) (st : state) : state :=
  {| errorMessage := errorMessage st; timeout := timeout st; hasFulfilled := hasFulfilled st;
     host := v; returned := returned st; settle_calls := settle_calls st;
     operation_observed := operation_observed st |}.

Definition set_operation_observed (v : bool) (st : state) : state :=
  {| errorMessage := errorMessage st; timeout := timeout st; hasFulfilled := hasFulfilled st;
     host := host st; returned := returned st; settle_calls := settle_calls st;
     operation_observed := v |}.

(** [resolve(v)] and [reject(e)] of the returned promise. *)
Definition call_resolve (v : value) (st : state) : state :=
  {| errorMessage := errorMessage st; timeout := timeout st; hasFulfilled := hasFulfilled st;
     host := host st; returned := resolve v (returned st);
     settle_calls := settle_calls st ++ [Resolve v];
     operation_observed := operation_observed st |}.

Definition call_reject (e : value) (st : state) : state :=
  {| errorMessage := errorMessage st; timeout := timeout st; hasFulfilled := hasFulfilled st;
     host := host st; returned := reject e (returned st);
     settle_calls := settle_calls st ++ [Reject e];
     operation_observed := operation_observed st |}.

(** [const callback = (err, result) => { ... }] *)
Definition callback (err result : value) (st : state) : state :=
  if hasFulfilled st then st
  else
    let st := set_host (clearTimeout (timeout st) (host st)) st in
    let st := set_hasFulfilled true st in
    if truthy err then call_reject err st
    else call_resolve result st.

(** The executor of the returned promise, run at once by [new Promise]:
    it declares the variables, registers the two reactions on the wrapped
    promise (they run later, in jobs of their own) and starts the timer. *)
Definition timeoutPromise (timeoutMillis : Z) (message : option string) (h : timers) : state :=
  let st := {| errorMessage := match message with
                               | Some msg => msg
                               | None => "Promise has timed-out"
                               end;
               timeout := None;
               hasFulfilled := false;
               host := h;
               returned := Pending;
               settle_calls := [];
               operation_observed := false |} in
  let (id, h') := setTimeout timeoutMillis (host st) in
  set_timeout (Some id) (set_host h' st).

(** What happens afterwards: the wrapped promise settles and the job of
    the matching reaction runs, or the host runs a timer that is due. *)
Inductive event :=
| OperationFulfilled (result : value)
| OperationRejected (reason : value)
| TimerFired (id : nat).

(** One event; [None] when it cannot happen in this state: a promise
    settles once, and only a pending timer fires. *)
Definition step (st : state) (e : event) : option state :=
  match e with
  | OperationFulfilled result =>
      if operation_observed st then None
      else Some (callback VNull result (set_operation_observed true st))
  | OperationRejected reason =>
      if operation_observed st then None
      else Some (callback reason VUndefined (set_operation_observed true st))
  | TimerFired id =>
      match fire id (host st) with
      | Some h =>
          if decide (timeout st = Some id)
          then Some (callback (VError (errorMessage st)) VUndefined (set_host h st))
          else Some (set_host h st)
      | None => None
      end
  end.

Fixpoint run (st : state) (es : list event) : option state :=
  match es with
  | [] => Some st
  | e :: rest =>
      match step st e with
      | Some st' => run st' rest
      | None => None
      end
  end.

(** A timer of the host that is not the one started here. *)
Definition foreign_timer (own : nat) (e : event) : Prop :=
  exists id, e = TimerFired id /\ id <> own.

(** The state between the executor and the first event that concerns the
    guarded promise. *)
Definition armed (own : nat) (st : state) : Prop :=
  hasFulfilled st = false /\ timeout st = Some own
  /\ is_Some (pending (host st) !! own)
  /\ settle_calls st = [] /\ returned st = Pending
  /\ operation_observed st = false.

Definition settles_at_most_once (st : state) : Prop :=
  (hasFulfilled st = false /\ settle_calls st = [])
  \/ (hasFulfilled st = true /\ List.length (settle_calls st) = 1%nat).

End PromiseGuard.

(** ** RepeatingTask: betterSetInterval and betterClearInterval *)

Module RepeatingTask.
Import Js.

(** What a property of the handle can be when [betterClearInterval] reads
    it: missing (or falsy), a truthy value that cannot be called, or a
    function working on the state [W] of the program. *)
Inductive member (W : Type) :=
| Absent
| NotCallable
| Method (f : W -> result W).
Arguments Absent {W}.
Arguments NotCallable {W}.
Arguments Method {W} f.

(** The argument of [betterClearInterval]: [null] or [undefined], or an
    object with its [_betterClearInterval] property. *)
Inductive handle (W : Type) :=
| Nullish
| Object (_betterClearInterval : member W).
Arguments Nullish {W}.
Arguments Object {W} _betterClearInterval.

Section WithLogger.
Context {W : Type}.
(** [log.exception(e, message)] of the logger capability. *)
Variable log_exception : value -> string -> W -> W.

Definition betterClearInterval (intervalID : handle W) (w : W) : result W :=
  match intervalID with
  | Object (Method f) =>
      match f w with
      | Ok w' => Ok w'
      | Threw e w' => Ok (log_exception e "_betterClearInterval() threw an exception!?" w')
      end
  | Object NotCallable =>
      Ok (log_exception (VError "intervalID._betterClearInterval is not a function")
            "_betterClearInterval() threw an exception!?" w)
  | Object Absent => Ok w
  | Nullish => Ok w
  end.

End WithLogger.

(** The variables the closures of one [betterSetInterval] call share, the
    timers of this task that are pending in the host, the number of
    calls of the work function so far, and what has been logged. *)
Record state := {
  delay : Z;
  isRunning : bool;
  timeoutId : option nat;
  host : timers;
  invocations : nat;
  logged : list (value * string);
}.

Definition set_host (h : timers) (st : state) : state :=
  {| delay := delay st; isRunning := isRunning st; timeoutId := timeoutId st;
     host := h; invocations := invocations st; logged := logged st |}.

Definition set_timeoutId (v : option nat) (st : state) : state :=
  {| delay := delay st; isRunning := isRunning st; timeoutId := v;
     host := host st; invocations := invocations st; logged := logged st |}.

Definition set_isRunning (v : bool) (st : state) : state :=
  {| delay := delay st; isRunning := v; timeoutId := timeoutId st;
     host := host st; invocations := invocations st; logged := logged st |}.

Definition log_exception (e : value) (message : string) (st : state) : state :=
  {| delay := delay st; isRunning := isRunning st; timeoutId := timeoutId st;
     host := host st; invocations := invocations st;
     logged := logged st ++ [(e, message)] |}.

(** [funcWrapper]: [func(callback)].  The work function gets the
    continuation; when it calls it is an event of its own. *)
Definition funcWrapper (st : state) : state :=
  {| delay := delay st; isRunning := isRunning st; timeoutId := timeoutId st;
     host := host st; invocations := S (invocations st); logged := logged st |}.

(** [callback]: [if (isRunning) timeoutId = setTimeout(funcWrapper, delay)] *)
Definition callback (st : state) : state :=
  if isRunning st then
    let (id, h) := setTimeout (delay st) (host st) in
    set_timeoutId (Some id) (set_host h st)
  else st.

Definition betterSetInterval (delayMillis : Z) (first_id : nat) : state :=
  funcWrapper {| delay := delayMillis; isRunning := true; timeoutId := None;
                 host := no_timers first_id; invocations := 0; logged := [] |}.

(** The method of the returned object. *)
Definition _betterClearInterval (st : state) : result state :=
  let st := set_isRunning false st in
  Ok (set_host (clearTimeout (timeoutId st) (host st)) st).

Definition returned_handle : handle state := Object (Method _betterClearInterval).

(** What can happen to a running task: the work function calls the
    continuation it was given, a pending timer of the task fires, or the
    owner passes the handle to [betterClearInterval]. *)
Inductive event :=
| Continuation
| TimerFired (id : nat)
| Cancel.

Definition step (st : state) (e : event) : option state :=
  match e with
  | Continuation => Some (callback st)
  | TimerFired id =>
      match fire id (host st) with
      | Some h => Some (funcWrapper (set_host h st))
      | None => None
      end
  | Cancel => Some (state_of (betterClearInterval log_exception returned_handle st))
  end.

Fixpoint run (st : state) (es : list event) : option state :=
  match es with
  | [] => Some st
  | e :: rest =>
      match step st e with
      | Some st' => run st' rest
      | None => None
      end
  end.

(** The state a cancellation leaves. *)
Definition cancelled (st : state) : state :=
  set_host (clearTimeout (timeoutId st) (host st)) (set_isRunning false st).

(** Whether the timer that [timeoutId] names is pending. *)
Definition timer_pending (st : state) : bool :=
  match timeoutId st with
  | Some id => bool_decide (is_Some (pending (host st) !! id))
  | None => false
  end.

(** A handle whose method throws after it has changed the state. *)
Definition throwing_method (st : RepeatingTask.state) : result RepeatingTask.state :=
  Threw (VError "bad handle") (RepeatingTask.set_isRunning false st).

End RepeatingTask.

(** ** ReadinessPromise: promisifyServerListen *)

Module ReadinessPromise.
Import Js.

(** The functions a server can hold as listeners: the two closures that
    one call of the promisified function creates, and the listeners that
    other code registered. *)
Inductive listener :=
| OnError
| OnListening
| Foreign (n : nat).

#[export] Instance listener_eq_dec : EqDecision listener.
Proof. solve_decision. Defined.

Definition is_foreign (l : listener) : bool :=
  match l with
  | Foreign _ => true
  | _ => false
  end.

(** What a call of [server.listen(port)] does before it returns: it
    changes the server, emits events, and may throw in the end. *)
Record listen_outcome (S : Type) := {
  after : S;
  emits : list (string * value);
  throws : option value;
}.
Arguments after {S} _.
Arguments emits {S} _.
Arguments throws {S} _.

(** The [Server] interface, over the state [S] of the server object;
    [listeners] is the list that an emit of the event goes through. *)
Record Server (S : Type) := {
  on : string -> listener -> S -> result S;
  removeListener : string -> listener -> S -> result S;
  listen : Z -> S -> listen_outcome S;
  listeners : string -> S -> list listener;
}.
Arguments on {S} _ _ _ _.
Arguments removeListener {S} _ _ _ _.
Arguments listen {S} _ _ _.
Arguments listeners {S} _ _ _.

(** The server, the returned promise and the calls made to its resolving
    functions. *)
Record state (S : Type) := {
  srv : S;
  returned : promise;
  settle_calls : list settle_call;
}.
Arguments srv {S} _.
Arguments returned {S} _.
Arguments settle_calls {S} _.

Section WithServer.
Context {S : Type}.
Variable server : Server S.

Definition set_srv (s : S) (st : state S) : state S :=
  {| srv := s; returned := returned st; settle_calls := settle_calls st |}.

(** A method call on the server, inside the state of the whole. *)
Definition on_server (f : S -> result S) (st : state S) : result (state S) :=
  match f (srv st) with
  | Ok s => Ok (set_srv s st)
  | Threw e s => Threw e (set_srv s st)
  end.

Definition call_resolve (v : value) (st : state S) : state S :=
  {| srv := srv st; returned := resolve v (returned st);
     settle_calls := settle_calls st ++ [Resolve v] |}.

Definition call_reject (e : value) (st : state S) : state S :=
  {| srv := srv st; returned := reject e (returned st);
     settle_calls := settle_calls st ++ [Reject e] |}.

Definition removeListeners (st : state S) : result (state S) :=
  bind (on_server (removeListener server "error" OnError) st)
       (on_server (removeListener server "listening" OnListening)).

Definition onError (err : value) (st : state S) : result (state S) :=
  bind (removeListeners st) (fun st => Ok (call_reject err st)).

Definition onListening (st : state S) : result (state S) :=
  bind (removeListeners st) (fun st => Ok (call_resolve VUndefined st)).

(** Calling a listener with the argument of the event.  What foreign
    listeners do is no concern of the promise. *)
Definition call (l : listener) (arg : value) (st : state S) : result (state S) :=
  match l with
  | OnError => onError arg st
  | OnListening => onListening st
  | Foreign _ => Ok st
  end.

Fixpoint call_all (ls : list listener) (arg : value) (st : state S) : result (state S) :=
  match ls with
  | [] => Ok st
  | l :: rest => bind (call l arg st) (call_all rest arg)
  end.

(** [server.emit(name, arg)]: the listeners registered at that moment are
    called in order; an exception of one of them ends the emit and goes
    to whoever emitted.  (What an emitter does with an event that has no
    listener is between it and its caller and is left out.) *)
Definition emit (ev : string * value) (st : state S) : result (state S) :=
  call_all (listeners server (fst ev) (srv st)) (snd ev) st.

Fixpoint emit_all (evs : list (string * value)) (st : state S) : result (state S) :=
  match evs with
  | [] => Ok st
  | ev :: rest => bind (emit ev st) (emit_all rest)
  end.

(** The executor of the returned promise. *)
Definition executor (port : Z) (st : state S) : result (state S) :=
  bind (on_server (on server "error" OnError) st) (fun st =>
  bind (on_server (on server "listening" OnListening) st) (fun st =>
  let o := listen server port (srv st) in
  bind (emit_all (emits o) (set_srv (after o) st)) (fun st =>
  match throws o with
  | Some e => Threw e st
  | None => Ok st
  end))).

(** [promisifyServerListen(server)(port)]: [new Promise] runs the
    executor at once and rejects the promise if the executor throws. *)
Definition promisifyServerListen (port : Z) (s : S) : state S :=
  match executor port {| srv := s; returned := Pending; settle_calls := [] |} with
  | Ok st => st
  | Threw e st => call_reject e st
  end.

(** Events that the server emits after the call has returned; an
    exception of a listener is the emitter's to deal with. *)
Fixpoint later (evs : list (string * value)) (st : state S) : state S :=
  match evs with
  | [] => st
  | ev :: rest => later rest (state_of (emit ev st))
  end.

End WithServer.

(** *** An event emitter as Node implements it *)

Inductive method_call :=
| COn (ev : string) (l : listener)
| CRemoveListener (ev : string) (l : listener)
| CListen (port : Z).

(** The registered listeners in the order of registration, the method
    calls received so far, and the events that the next [listen] emits
    before it returns. *)
Record emitter := {
  registered : list (string * listener);
  calls : list method_call;
  script : list (string * value);
}.

Fixpoint remove_first (x : string * listener) (l : list (string * listener)) :
    list (string * listener) :=
  match l with
  | [] => []
  | y :: t => if decide (x = y) then t else y :: remove_first x t
  end.

(** [removeListener] removes the most recently added instance. *)
Definition remove_last (x : string * listener) (l : list (string * listener)) :
    list (string * listener) :=
  rev (remove_first x (rev l)).

Definition emitter_server : Server emitter := {|
  on ev l e :=
    Ok {| registered := registered e ++ [(ev, l)];
          calls := calls e ++ [COn ev l];
          script := script e |};
  removeListener ev l e :=
    Ok {| registered := remove_last (ev, l) (registered e);
          calls := calls e ++ [CRemoveListener ev l];
          script := script e |};
  listen port e :=
    {| after := {| registered := registered e;
                   calls := calls e ++ [CListen port];
                   script := [] |};
       emits := script e;
       throws := None |};
  listeners ev e :=
    map snd (List.filter (fun p => String.eqb (fst p) ev) (registered e));
|}.

(** A server whose [removeListener] throws. *)
Definition faulty_server : Server emitter := {|
  on := on emitter_server;
  removeListener ev l e := Threw (VError "removeListener failed") e;
  listen := listen emitter_server;
  listeners := listeners emitter_server;
|}.

(** An event that is neither of the two the promise listens to. *)
Definition unrelated (ev : string * value) : Prop :=
  fst ev <> "error"%string /\ fst ev <> "listening"%string.

(** A server that has not been listened to yet: the listeners other
    code registered, and the events its [listen] emits at once. *)
Definition fresh_emitter (others : list (string * listener)) (sc : list (string * value)) : emitter :=
  {| registered := others; calls := []; script := sc |}.

Definition own_listeners : list (string * listener) :=
  [("error"%string, OnError); ("listening"%string, OnListening)].

Definition setup_calls (port : Z) : list method_call :=
  [COn "error" OnError; COn "listening" OnListening; CListen port].

Definition cleanup_calls : list method_call :=
  [CRemoveListener "error" OnError; CRemoveListener "listening" OnListening].

(** Both listeners registered, [listen] called, nothing settled yet. *)
Definition ready (others : list (string * listener)) (port : Z) (st : state emitter) : Prop :=
  registered (srv st) = others ++ own_listeners
  /\ calls (srv st) = setup_calls port
  /\ returned st = Pending /\ settle_calls st = [].

Definition promise_after (c : settle_call) : promise :=
  match c with
  | Resolve v => Fulfilled v
  | Reject e => Rejected e
  end.

(** Settled by the single call [c], both listeners removed. *)
Definition settled_by (others : list (string * listener)) (port : Z) (c : settle_call)
    (st : state emitter) : Prop :=
  registered (srv st) = others
  /\ calls (srv st) = setup_calls port ++ cleanup_calls
  /\ returned st = promise_after c /\ settle_calls st = [c].

Definition all_foreign (others : list (string * listener)) : Prop :=
  Forall (fun p => is_foreign (snd p) = true) others.

Definition listeners_in (ev : string) (l : list (string * listener)) : list listener :=
  map snd (List.filter (fun p => String.eqb (fst p) ev) l).

(** The event that decides, and the call it makes. *)
Definition decision (ev : string * value) : option settle_call :=
  if String.eqb (fst ev) "error" then Some (Reject (snd ev))
  else if String.eqb (fst ev) "listening" then Some (Resolve VUndefined)
  else None.

Definition listening_or_done (others : list (string * listener)) (port : Z)
    (st : state emitter) : Prop :=
  ready others port st \/ exists c, settled_by others port c st.

(** The state in which [listen] starts to emit. *)
Definition listening_state (others : list (string * listener)) (port : Z) : state emitter :=
  {| srv := {| registered := others ++ own_listeners;
               calls := setup_calls port;
               script := [] |};
     returned := Pending;
     settle_calls := [] |}.

End ReadinessPromise.

(** ** SequentialRunner: sequentializePromises *)

Module SequentialRunner.
Import Js.

(** How a promise ends up. *)
Inductive outcome :=
| Fulfills (v : value)
| Rejects (e : value)
| NeverSettles.

(** What calling a function of the input does. *)
Inductive call_result :=
| Returns (o : outcome)
| Throws (e : value).

(** An element of the input array: a promise, or a function that makes
    one when it is called. *)
Inductive item :=
| APromise (o : outcome)
| AFunction (r : call_result).

(** What the run does, in order: it calls the function at an index, it
    suspends on the promise of an index, it resumes with what that
    promise settled to. *)
Inductive action :=
| Invoke (i : nat)
| Await (i : nat)
| Resume (i : nat).

(** The promise that the async function returns. *)
Inductive completion :=
| Resolved (results : list value)
| RejectedWith (e : value)
| Unsettled.

Record run := {
  settles : completion;
  trace : list action;
}.

(** [promiseOrFunc instanceof Function ? promiseOrFunc() : promiseOrFunc],
    with the actions it adds to the trace. *)
Definition obtain (i : nat) (promiseOrFunc : item) : list action * call_result :=
  match promiseOrFunc with
  | AFunction r => ([Invoke i], r)
  | APromise o => ([], Returns o)
  end.

(** The [for ... of] loop from the element of index [i] on. *)
Fixpoint loop (i : nat) (promises : list item) (results : list value) (tr : list action) : run :=
  match promises with
  | [] => {| settles := Resolved results; trace := tr |}
  | promiseOrFunc :: rest =>
      let (acts, r) := obtain i promiseOrFunc in
      match r with
      | Throws e => {| settles := RejectedWith e; trace := tr ++ acts |}
      | Returns NeverSettles => {| settles := Unsettled; trace := tr ++ acts ++ [Await i] |}
      | Returns (Rejects e) =>
          {| settles := RejectedWith e; trace := tr ++ acts ++ [Await i; Resume i] |}
      | Returns (Fulfills v) =>
          loop (S i) rest (results ++ [v]) (tr ++ acts ++ [Await i; Resume i])
      end
  end.

Definition sequentializePromises (promises : list item) : run :=
  if (List.length promises =? 0)%nat then {| settles := Resolved []; trace := [] |}
  else loop 0 promises [] [].

(** The element yields a promise that is fulfilled with [v]. *)
Definition fulfils (it : item) (v : value) : Prop :=
  snd (obtain 0 it) = Returns (Fulfills v).

(** The element yields a promise that is rejected with [e]. *)
Definition rejects (it : item) (e : value) : Prop :=
  snd (obtain 0 it) = Returns (Rejects e).

(** Every call of the function at an index above zero comes after the
    run has resumed from the promise of the index before. *)
Definition in_sequence (tr : list action) : Prop :=
  forall l1 j l2, tr = l1 ++ Invoke (S j) :: l2 -> In (Resume j) l1.

End SequentialRunner.

(** ** removeFromArray *)

Module ArrayUtil.

Section WithStrictEquality.
Context {A : Type}.
(** [x === y] on the elements; it need not be reflexive ([NaN]). *)
Variable strict_eq : A -> A -> bool.

(** [array.indexOf(element)], searching from the index [i]. *)
Fixpoint indexOf_from (i : Z) (array : list A) (element : A) : Z :=
  match array with
  | [] => -1
  | y :: rest => if strict_eq y element then i else indexOf_from (i + 1) rest element
  end.

Definition indexOf (array : list A) (element : A) : Z := indexOf_from 0 array element.

(** [array.splice(start, 1)] for [0 <= start]: the array afterwards. *)
Definition splice_one (start : Z) (array : list A) : list A :=
  firstn (Z.to_nat start) array ++ skipn (S (Z.to_nat start)) array.

(** The returned flag and the array afterwards. *)
Definition removeFromArray (array : list A) (element : A) : bool * list A :=
  let index := indexOf array element in
  if index >=? 0 then (true, splice_one index array)
  else (false, array).

End WithStrictEquality.

End ArrayUtil.

(** ** leftpad *)

Module LeftPad.

(** The third argument: a string, an integral number, [NaN], or left
    out.  Numbers with a fraction are not modelled. *)
Inductive pad :=
| PadString (s : JsString.t)
| PadNumber (n : Z)
| PadNaN
| PadOmitted.

(** [!ch] *)
Definition falsy (ch : pad) : bool :=
  match ch with
  | PadString [] => true
  | PadString _ => false
  | PadNumber n => n =? 0
  | PadNaN => true
  | PadOmitted => true
  end.

(** [ch !== 0] *)
Definition is_not_zero (ch : pad) : bool :=
  match ch with
  | PadNumber n => negb (n =? 0)
  | _ => true
  end.

(** Number.MAX_SAFE_INTEGER: up to it every integer is a number of the
    language and its text is its decimal notation. *)
Definition MAX_SAFE_INTEGER : Z := 2 ^ 53 - 1.

(** The text of an integral number, as string concatenation makes it:
    decimal notation for a safe integer.  Beyond that not every integer is
    a number and the text changes to exponent notation from [1e21] on;
    those numbers are outside the model ([None]). *)
Definition number_text (n : Z) : option JsString.t :=
  if Z.abs n <=? MAX_SAFE_INTEGER
  then Some (JsString.lit (NilZero.string_of_int (Z.to_int n)))
  else None.

(** The text that [ch + str] puts in front of [str]. *)
Definition pad_text (ch : pad) : option JsString.t :=
  match ch with
  | PadString s => Some s
  | PadNumber n => number_text n
  | PadNaN => Some (JsString.lit "NaN")
  | PadOmitted => Some (JsString.lit "undefined")
  end.

(** [while (++i < len) str = ch + str;], with enough fuel for the
    iterations that remain; [None] when an iteration needs a text that is
    outside the model. *)
Fixpoint pad_loop (fuel : nat) (i len : Z) (ch : pad) (str : JsString.t) :
    option JsString.t :=
  match fuel with
  | O => Some str
  | S f =>
      let i := i + 1 in
      if i <? len then
        match pad_text ch with
        | Some text => pad_loop f i len ch (text ++ str)
        | None => None
        end
      else Some str
  end.

Definition leftpad (str : JsString.t) (len : Z) (ch : pad) : option JsString.t :=
  let i := -1 in
  let ch := match ch with
            | PadOmitted => PadString (JsString.lit " ")
            | _ => ch
            end in
  let ch := if falsy ch && is_not_zero ch then PadString (JsString.lit " ") else ch in
  let len := len - JsString.jslength str in
  pad_loop (S (Z.to_nat len)) i len ch str.

(** The text that ends up in front of the string, once per iteration: a
    blank for a pad that is left out, empty or [NaN]. *)
Definition effective_pad (ch : pad) : option JsString.t :=
  match ch with
  | PadOmitted => Some (JsString.lit " ")
  | PadNaN => Some (JsString.lit " ")
  | PadString [] => Some (JsString.lit " ")
  | PadString s => Some s
  | PadNumber n => number_text n
  end.

End LeftPad.

(** ** escapeRegExp *)

Module EscapeRegExp.
Import Regex.

(** The pieces of a replacement text, for a pattern without capture
    groups: characters, and the patterns that stand for the match, for
    the text before it and for the text after it. *)
Inductive piece :=
| Lit (c : ascii)
| Matched
| Before
| After.

Fixpoint template (t : list ascii) : list piece :=
  match t with
  | "$"%char :: "$"%char :: r => Lit "$" :: template r
  | "$"%char :: "&"%char :: r => Matched :: template r
  | "$"%char :: "`"%char :: r => Before :: template r
  | "$"%char :: "'"%char :: r => After :: template r
  | c :: r => Lit c :: template r
  | [] => []
  end.

Definition substitute (t : list piece) (before matched after : list ascii) : list ascii :=
  flat_map (fun p => match p with
                     | Lit c => [c]
                     | Matched => matched
                     | Before => before
                     | After => after
                     end) t.

(** [str.replace(rx, replacement)] for a global [rx] without capture
    groups; [before] is the input up to the index [pos]. *)
Fixpoint replace_with (fuel : nat) (rx : RegExp) (t : list piece)
    (before : list ascii) (pos : nat) (s : list ascii) : list ascii :=
  match fuel with
  | O => s
  | S f =>
      let skip :=
        match s with
        | [] => []
        | c :: rest => c :: replace_with f rx t (before ++ [c]) (S pos) rest
        end in
      match match_at rx pos s with
      | Some (e, s') =>
          let matched := firstn (e - pos) s in
          let out := substitute t before matched s' in
          if (e =? pos)%nat then out ++ skip
          else out ++ replace_with f rx t (before ++ matched) e s'
      | None => skip
      end
  end.

(** The regular expression literal of the function, a character class. *)
Definition ESCAPE_REGEXP : RegExp :=
  {| source := Class false
       [CChar "."; CChar "*"; CChar "+"; CChar "?"; CChar "^"; CChar "$";
        CChar "{"; CChar "}"; CChar "("; CChar ")"; CChar "|"; CChar "[";
        CChar "]"; CChar "\"];
     ignoreCase := false;
     global := true |}.

Definition escapeRegExp (str : JsString.t) : JsString.t :=
  replace_with (S (List.length str)) ESCAPE_REGEXP (template (JsString.lit "\$&")) [] 0 str.

(** A character with its backslash when it is one of the fourteen. *)
Definition escape_char (c : ascii) : list ascii :=
  if is_syntax_char c then ["\"%char; c] else [c].

(** The pattern that a text compiles to when it is escaped and put
    between [^] and [$]: its characters in sequence, then the end. *)
Fixpoint literal_then (s : list ascii) (r : re) : re :=
  match s with
  | [] => r
  | c :: t => Seq (Char c) (literal_then t r)
  end.

End EscapeRegExp.

(** ** The structural rules of the forbidden-username pattern *)

Module UsernameRules.
Import Regex.

#[export] Instance class_item_eq_dec : EqDecision class_item.
Proof. solve_decision. Defined.

#[export] Instance re_eq_dec : EqDecision re.
Proof. solve_decision. Defined.

(** The members of an alternation. *)
Fixpoint alternatives (r : re) : list re :=
  match r with
  | Alt a b => alternatives a ++ alternatives b
  | _ => [r]
  end.

(** What is between [^(] and [)$] in the compiled [FORBIDDEN_REGEXP]. *)
Definition forbidden_body : re :=
  Eval vm_compute in
    match Username.FORBIDDEN_REGEXP with
    | Some rx =>
        match source rx with
        | Seq Bol (Seq (Group a) Eol) => a
        | _ => Empty
        end
    | None => Empty
    end.

(** The three structural entries of the list, compiled: a first character
    that is no letter or digit, a last character that is none, and two
    characters of underscore, dot and dash in a row. *)
Definition not_alnum : re := Class true [CRange "0" "9"; CRange "a" "z"].
Definition any_text : re := Repeat 0 None Dot.
Definition separator : re := Class false [CChar "_"; CChar "."; CChar "-"].

Definition rule_start : re := Group (Seq not_alnum any_text).
Definition rule_end : re := Group (Seq any_text not_alnum).
Definition rule_separators : re :=
  Group (Seq any_text (Seq (Repeat 2 (Some 2%nat) separator) any_text)).

(** No character of the text is a line terminator. *)
Definition one_line (s : list ascii) : Prop :=
  forallb (fun c => negb (is_line_terminator c)) s = true.

Definition is_separator (c : ascii) : bool :=
  existsb (Ascii.eqb c) (list_ascii_of_string "_.-").

(** The continuation at the end of the pattern: [$], then success. *)
Definition at_end : nat -> list ascii -> option (nat * list ascii) :=
  fun p s' => m true Eol p s' (fun p s' => Some (p, s')).

End UsernameRules.

(** ** How often each character of an identifier can come up *)

Module RandomIdBias.

(** The values a random octet can take. *)
Definition octets : list Z := map Z.of_nat (seq 0 256).

(** The number of octets that the loop of [cryptoRandomObjectId] turns
    into the character [c]. *)
Definition preimages (c : ascii) : nat :=
  List.length (List.filter (fun b => bool_decide (RandomId.from_bytes [b] = [c])) octets).

End RandomIdBias.

(** ** Runs of a repeating task *)

Module RepeatingTaskRuns.
Import Js RepeatingTask.

(** The number of timers that fire in a sequence of events. *)
Fixpoint fired (es : list event) : nat :=
  match es with
  | [] => 0
  | TimerFired _ :: rest => S (fired rest)
  | _ :: rest => fired rest
  end.

(** The work function keeps to the protocol along the run from [st]: it
    calls its continuation only while no timer of the task is pending,
    that is, once for each execution. *)
Fixpoint disciplined (st : state) (es : list event) : bool :=
  match es with
  | [] => true
  | e :: rest =>
      match e with
      | Continuation => bool_decide (pending (host st) = ∅)
      | _ => true
      end
      && match step st e with
         | Some st' => disciplined st' rest
         | None => true
         end
  end.

(** No timer of the task is pending, or just the one [timeoutId] names. *)
Definition single_timer (st : state) : Prop :=
  pending (host st) = ∅
  \/ exists id d, timeoutId st = Some id /\ pending (host st) = {[id := d]}.

End RepeatingTaskRuns.

(** ** delayPromise *)

Module Delay.
Import Js.

(** The timers of the host, the timer that the call started (if any) and
    the returned promise. *)
Record state := {
  host : timers;
  timer : option nat;
  returned : promise;
}.


(** The host runs a pending timer; the one of the call resolves the
    promise. *)
Definition step (st : state) (id : nat) : option state :=
  match fire id (host st) with
  | Some h =>
      Some {| host := h; timer := timer st;
              returned := if decide (timer st = Some id)
                          then resolve VUndefined (returned st)
                          else returned st |}
  | None => None
  end.

Fixpoint run (st : state) (ids : list nat) : option state :=
  match ids with
  | [] => Some st
  | id :: rest =>
      match step st id with
      | Some st' => run st' rest
      | None => None
      end
  end.

End Delay.

(** ** A server whose [listen] throws *)

Module ReadinessFailures.
Import Js ReadinessPromise.

(** The event emitter, except that [listen] throws [e] in the end. *)
Definition throwing_listen_server (e : value) : Server emitter := {|
  on := on emitter_server;
  removeListener := removeListener emitter_server;
  listen port s :=
    {| after := after (listen emitter_server port s);
       emits := emits (listen emitter_server port s);
       throws := Some e |};
  listeners := listeners emitter_server;
|}.

(** The event emitter, except that [removeListener] throws for the
    ["listening"] event, the second call of the cleanup. *)
Definition second_removal_fails_server : Server emitter := {|
  on := on emitter_server;
  removeListener ev l s :=
    if String.eqb ev "listening" then Threw (VError "removeListener failed") s
    else removeListener emitter_server ev l s;
  listen := listen emitter_server;
  listeners := listeners emitter_server;
|}.

End ReadinessFailures.

(** ** The actions of a sequential run *)

Module SequentialTrace.
Import SequentialRunner.

(** What a run does for the elements from the index [i] on when each of
    them is fulfilled. *)
Fixpoint steps_from (i : nat) (promises : list item) : list action :=
  match promises with
  | [] => []
  | it :: rest => fst (obtain i it) ++ [Await i; Resume i] ++ steps_from (S i) rest
  end.

Definition is_await (a : action) : bool :=
  match a with
  | Await _ => true
  | _ => false
  end.

Definition is_function (it : item) : bool :=
  match it with
  | AFunction _ => true
  | APromise _ => false
  end.

Definition is_invoke (a : action) : bool :=
  match a with
  | Invoke _ => true
  | _ => false
  end.

End SequentialTrace.

(* ================================================================== *)
(** * Theorems *)
(* ================================================================== *)

Section RandomIdFacts.
Import RandomId.

Lemma chars_length : List.length chars = 62%nat.
Proof. reflexivity. Qed.

Lemma chars_alnum : forallb is_alnum chars = true.
Proof. vm_compute. reflexivity. Qed.

Lemma chars_NoDup : NoDup chars.
Proof. apply (bool_decide_unpack _). vm_compute. exact I. Qed.

Lemma to_int32_byte (b : Z) : 0 <= b < 256 -> JsNum.to_int32 b = b.
Proof.
  intros Hb. unfold JsNum.to_int32.
  rewrite Z.mod_small by lia.
  destruct (b <? 2 ^ 31) eqn:E; [reflexivity | apply Z.ltb_ge in E; lia].
Qed.

Lemma index_chars_byte (b : Z) :
  0 <= b < 256 ->
  JsString.index chars (JsNum.rem (JsNum.to_int32 b) (JsString.jslength chars))
  = Some (char_of_byte b).
Proof.
  intros Hb. rewrite to_int32_byte by assumption.
  unfold JsNum.rem, JsString.jslength. rewrite chars_length.
  change (Z.of_nat 62) with 62.
  rewrite Z.rem_mod_nonneg by lia.
  assert (Hm : 0 <= b mod 62 < 62) by (apply Z.mod_pos_bound; lia).
  unfold JsString.index.
  destruct (b mod 62 <? 0) eqn:E; [apply Z.ltb_lt in E; lia |].
  unfold char_of_byte. apply nth_error_nth'. rewrite chars_length. lia.
Qed.

Lemma loop_spec (bytes : list Z) :
  Forall (fun b => 0 <= b < 256) bytes ->
  forall n str, (n <= List.length bytes)%nat ->
  loop bytes n str = str ++ map char_of_byte (rev (firstn n bytes)).
Proof.
  intros Hall. induction n as [|n IH]; intros str Hn.
  - simpl. now rewrite app_nil_r.
  - cbn [loop]. rewrite IH by lia. unfold loop_body.
    assert (Hn' : (n < List.length bytes)%nat) by lia.
    assert (Hb : 0 <= nth n bytes 0 < 256).
    { rewrite List.Forall_forall in Hall. apply Hall. now apply nth_In. }
    rewrite index_chars_byte by assumption. cbn [JsString.append_indexed].
    destruct (lookup_lt_is_Some_2 bytes n Hn') as [b Hlk].
    rewrite (nth_lookup_Some _ _ 0 _ Hlk) in *.
    rewrite (take_S_r _ _ _ Hlk).
    rewrite rev_app_distr. cbn [rev app map].
    now rewrite <- app_assoc.
Qed.

Lemma char_of_byte_in (b : Z) : In (char_of_byte b) chars.
Proof.
  unfold char_of_byte. apply nth_In. rewrite chars_length.
  assert (0 <= b mod 62 < 62) by (apply Z.mod_pos_bound; lia). lia.
Qed.

(** C7: for a source of random octets, [cryptoRandomObjectId(L)] has exactly
    [L] characters, every one of them a member of the 62-character
    alphanumeric alphabet, and it is the image of the random bytes under
    "byte modulo 62 selects a character", taken in reverse byte order. *)
Theorem cryptoRandomObjectId_spec
  (Rng : Type) (randomBytes : nat -> Rng -> list Z * Rng)
  (Hsrc : byte_source randomBytes) (L : nat) (g : Rng) :
  let bytes := (randomBytes L g).1 in
  let id := (cryptoRandomObjectId Rng randomBytes (Some L) g).1 in
  List.length id = L
  /\ Forall (fun c => In c chars) id
  /\ id = map char_of_byte (rev bytes)
  /\ (List.length chars = 62%nat /\ forallb is_alnum chars = true /\ NoDup chars).
Proof.
  intros bytes id.
  destruct (Hsrc L g) as [Hlen Hrange]. fold bytes in Hlen, Hrange.
  assert (Hid : id = map char_of_byte (rev bytes)).
  { subst id bytes. unfold cryptoRandomObjectId.
    destruct (randomBytes L g) as [bs g']. cbn beta iota delta [fst] in *.
    unfold from_bytes. rewrite loop_spec by (assumption || lia).
    now rewrite firstn_all. }
  refine (conj _ (conj _ (conj Hid (conj chars_length (conj chars_alnum chars_NoDup))))).
  - rewrite Hid, length_map, length_rev. exact Hlen.
  - rewrite Hid. apply List.Forall_forall. intros c Hc.
    apply in_map_iff in Hc. destruct Hc as [b [<- _]]. apply char_of_byte_in.
Qed.

Lemma lcg_bytes_length (n : nat) : forall g, List.length (lcg_bytes n g).1 = n.
Proof.
  induction n as [|n IH]; intros g; [reflexivity|].
  cbn [lcg_bytes]. specialize (IH (lcg_next g)).
  destruct (lcg_bytes n (lcg_next g)) as [bs g'']. cbn in *. now rewrite IH.
Qed.

Lemma lcg_bytes_range (n : nat) :
  forall g, Forall (fun b => 0 <= b < 256) (lcg_bytes n g).1.
Proof.
  induction n as [|n IH]; intros g; [constructor|].
  cbn [lcg_bytes]. specialize (IH (lcg_next g)).
  destruct (lcg_bytes n (lcg_next g)) as [bs g'']. cbn in *.
  constructor; [apply Z.mod_pos_bound; lia | exact IH].
Qed.

Lemma lcg_byte_source : byte_source lcg_bytes.
Proof. intros n g. split; [apply lcg_bytes_length | apply lcg_bytes_range]. Qed.

Lemma cryptoRandomObjectId_spec_witness :
  byte_source lcg_bytes /\
  List.length (cryptoRandomObjectId Z lcg_bytes (Some 5%nat) 42).1 = 5%nat.
Proof.
  split; [exact lcg_byte_source|].
  exact (proj1 (cryptoRandomObjectId_spec Z lcg_bytes lcg_byte_source 5 42)).
Defined.

Example cryptoRandomObjectId_run :
  (cryptoRandomObjectId Z lcg_bytes None 42).1 = JsString.lit "hW5A0swfJiVhG3Pnn".
Proof. vm_compute. reflexivity. Qed.

End RandomIdFacts.

Section RegexParseFacts.
Import Regex.

Example parse_literal :
  parse (JsString.lit "ab|c") = Some (Alt (Seq (Char "a") (Char "b")) (Char "c")).
Proof. reflexivity. Qed.

Example parse_hidden :
  parse (JsString.lit "(\..*)") = Some (Group (Seq (Char ".") (Repeat 0 None Dot))).
Proof. reflexivity. Qed.

Example parse_separators :
  parse (JsString.lit "[_.\-]{2}")
  = Some (Repeat 2 (Some 2%nat) (Class false [CChar "_"; CChar "."; CChar "-"])).
Proof. reflexivity. Qed.

Example parse_negated :
  parse (JsString.lit "^[^0-9a-z]$")
  = Some (Seq Bol (Seq (Class true [CRange "0" "9"; CRange "a" "z"]) Eol)).
Proof. reflexivity. Qed.

Example match_anchored_yes : test "^(ab|c)$" "" "ab" = Some true.
Proof. reflexivity. Qed.
Example match_anchored_no : test "^(ab|c)$" "" "abc" = Some false.
Proof. reflexivity. Qed.
Example match_unanchored : test "b+" "" "aabbc" = Some true.
Proof. reflexivity. Qed.
Example match_case_sensitive : test "^admin$" "" "ADMIN" = Some false.
Proof. reflexivity. Qed.
Example match_case_insensitive : test "^admin$" "i" "ADMIN" = Some true.
Proof. reflexivity. Qed.
Example match_negated_class_icase : test "^[^0-9a-z]$" "i" "A" = Some false.
Proof. reflexivity. Qed.
Example match_negated_class_dash : test "^[^0-9a-z]$" "i" "-" = Some true.
Proof. reflexivity. Qed.
Example match_star_backtracks : test "^(.*[_.\-]{2}.*)$" "i" "a__b" = Some true.
Proof. reflexivity. Qed.
Example match_star_empty_atom : test "^(a*)*b$" "" "aab" = Some true.
Proof. reflexivity. Qed.
Example match_dot_is_wildcard : test "^wp-login.php$" "i" "wp-loginXphp" = Some true.
Proof. reflexivity. Qed.

Example replace_all_example :
  option_map (fun rx => replace_all rx (JsString.lit "x") (JsString.lit "a+b/c=="))
    (rx_of "(\+|\/|=)" "g")
  = Some (JsString.lit "axbxcxx").
Proof. reflexivity. Qed.

End RegexParseFacts.

Section UsernameFacts.
Import Username.

Lemma FORBIDDEN_REGEXP_compiles : is_Some FORBIDDEN_REGEXP.
Proof. vm_compute. eexists. reflexivity. Qed.

Lemma FORBIDDEN_REGEXP_flags :
  option_map Regex.ignoreCase FORBIDDEN_REGEXP = Some true
  /\ option_map Regex.global FORBIDDEN_REGEXP = Some false.
Proof. split; vm_compute; reflexivity. Qed.

(** C6: the usernames the specification lists are classified as it says:
    "anonymous", ".hidden", "a__b", "-leading", "trailing-" and "ADMIN" are
    forbidden; "my-cool-scraper" and the empty string are not. *)
Theorem isForbiddenUsername_examples :
  isForbiddenUsername (JsString.lit "anonymous") = Some true
  /\ isForbiddenUsername (JsString.lit ".hidden") = Some true
  /\ isForbiddenUsername (JsString.lit "a__b") = Some true
  /\ isForbiddenUsername (JsString.lit "-leading") = Some true
  /\ isForbiddenUsername (JsString.lit "trailing-") = Some true
  /\ isForbiddenUsername (JsString.lit "ADMIN") = Some true
  /\ isForbiddenUsername (JsString.lit "my-cool-scraper") = Some false
  /\ isForbiddenUsername (JsString.lit "") = Some false.
Proof. repeat split; vm_compute; reflexivity. Qed.

End UsernameFacts.

Section HashFacts.

Example sha256_constants :
  nth 0 Sha256.K 0 = 0x428a2f98 /\ nth 63 Sha256.K 0 = 0xc67178f2
  /\ List.length Sha256.K = 64%nat
  /\ Sha256.ha Sha256.H0 = 0x6a09e667 /\ Sha256.hh Sha256.H0 = 0x5be0cd19.
Proof. repeat split; reflexivity. Qed.

Example sha256_abc :
  Sha256.hex_of (Sha256.sha256 (Utf8.encode (Utf8.units_of (JsString.lit "abc"))))
  = JsString.lit "ba7816bf8f01cfea414140de5dae2223b00361a396177a9cb410ff61f20015ad".
Proof. vm_compute. reflexivity. Qed.

Example sha256_empty :
  Sha256.hex_of (Sha256.sha256 [])
  = JsString.lit "e3b0c44298fc1c149afbf4c8996fb92427ae41e4649b934ca495991b7852b855".
Proof. vm_compute. reflexivity. Qed.

Example sha256_two_blocks :
  Sha256.hex_of (Sha256.sha256 (repeat 97 70))
  = JsString.lit "6bd5e5034855a11241f0dee8fc72850ffd9955b28347a86428b5fa19119f6ad0".
Proof. vm_compute. reflexivity. Qed.

Example utf8_latin1 : Utf8.encode [104; 233; 108; 108; 111] = [104; 195; 169; 108; 108; 111].
Proof. reflexivity. Qed.

Example utf8_surrogate_pair : Utf8.encode [0xD83D; 0xDE00] = [0xF0; 0x9F; 0x98; 0x80].
Proof. reflexivity. Qed.

Example base64_abc_digest :
  Base64.encode (Sha256.sha256 [97; 98; 99])
  = JsString.lit "ungWv48Bz+pBQUDeXa4iI7ADYaOWF3qctBD/YfIAFa0=".
Proof. vm_compute. reflexivity. Qed.

Example deterministicUniqueId_abc :
  DeterministicId.deterministicUniqueId [97; 98; 99] None
  = Some (JsString.lit "ungWv48BzxpBQUDeX").
Proof. vm_compute. reflexivity. Qed.

Example deterministicUniqueId_accent :
  DeterministicId.deterministicUniqueId [104; 233; 108; 108; 111] (Some 17)
  = Some (JsString.lit "PEhZHY0JikU49eAT3").
Proof. vm_compute. reflexivity. Qed.

End HashFacts.

Section DeterministicIdFacts.
Import DeterministicId.

Lemma filler_regexp_literal : Regex.rx_of "(\+|\/|=)" "g" = Some FILLER_REGEXP.
Proof. reflexivity. Qed.

(** The literal matches exactly one character, one of [+], [/], [=]. *)
Lemma filler_match_at (pos : nat) (s : list ascii) :
  Regex.match_at FILLER_REGEXP pos s =
  match s with
  | c :: t => if is_filled c then Some (S pos, t) else None
  | [] => None
  end.
Proof.
  destruct s as [|c t]; [reflexivity|].
  unfold Regex.match_at, is_filled, FILLER_REGEXP.
  cbn [Regex.source Regex.ignoreCase Regex.m Regex.char_matcher].
  unfold Regex.canon_eq.
  rewrite (Ascii.eqb_sym c "+"), (Ascii.eqb_sym c "/"), (Ascii.eqb_sym c "=").
  destruct (Ascii.eqb "+" c); [reflexivity|].
  destruct (Ascii.eqb "/" c); [reflexivity|].
  destruct (Ascii.eqb "=" c); reflexivity.
Qed.

Lemma filler_replace_from (s : list ascii) :
  forall fuel pos, (List.length s < fuel)%nat ->
  Regex.replace_from fuel FILLER_REGEXP (JsString.lit "x") pos s = map fill s.
Proof.
  induction s as [|c t IH]; intros fuel pos Hfuel.
  - destruct fuel; [cbn in Hfuel; lia|]. cbn [Regex.replace_from].
    rewrite filler_match_at. reflexivity.
  - destruct fuel; [cbn in Hfuel; lia|]. cbn [Regex.replace_from].
    cbn [List.length] in Hfuel.
    rewrite filler_match_at. cbn [map]. unfold fill at 1.
    destruct (is_filled c).
    + assert ((S pos =? pos)%nat = false) as -> by (apply Nat.eqb_neq; lia).
      cbn [JsString.lit list_ascii_of_string app]. f_equal. apply IH. lia.
    + f_equal. apply IH. lia.
Qed.

Lemma filler_replace_all (s : list ascii) :
  Regex.replace_all FILLER_REGEXP (JsString.lit "x") s = map fill s.
Proof. unfold Regex.replace_all. apply filler_replace_from. lia. Qed.

Lemma substr_prefix (s : JsString.t) (len : Z) :
  JsString.substr s 0 len = firstn (Z.to_nat len) s.
Proof.
  unfold JsString.substr, JsString.jslength.
  set (size := Z.of_nat (List.length s)).
  assert (Hsize : 0 <= size) by (subst size; lia).
  cbn [Z.ltb Z.compare]. rewrite (Z.min_l 0 size) by lia. rewrite Z.add_0_l.
  destruct (Z.leb_spec (Z.min (Z.min (Z.max len 0) size) size) 0) as [Hle|Hgt].
  - destruct (Z.le_gt_cases len 0) as [Hl|Hl].
    + replace (Z.to_nat len) with 0%nat by lia. reflexivity.
    + assert (size = 0) by lia. destruct s; [now rewrite firstn_nil | subst size; cbn in *; lia].
  - rewrite Z.sub_0_r. change (Z.to_nat 0) with 0%nat. rewrite drop_0.
    destruct (Z.le_gt_cases len size) as [Hl|Hl].
    + f_equal. lia.
    + rewrite !firstn_all2; [reflexivity | subst size; lia | subst size; lia].
Qed.

(** C8: [deterministicUniqueId] is a function of its arguments alone, and its
    value is the SHA-256 digest of the UTF-8 encoding of the key, in base64,
    with each [+], [/] and [=] replaced by [x], cut to the requested length
    (17 when none is given). *)
Theorem deterministicUniqueId_refines_spec (key : list Z) (length : option Z) :
  deterministicUniqueId key length
  = Some (spec_deterministicUniqueId key (match length with Some n => n | None => 17 end)).
Proof.
  unfold deterministicUniqueId, digest, update, createHash. cbn [algorithm buffer app].
  cbn [String.eqb Ascii.eqb Bool.eqb andb option_map].
  rewrite filler_replace_all, substr_prefix. reflexivity.
Qed.

Lemma be32_length (w : Z) : List.length (Sha256.be32 w) = 4%nat.
Proof. reflexivity. Qed.

Lemma sha256_length (msg : list Z) : List.length (Sha256.sha256 msg) = 32%nat.
Proof.
  unfold Sha256.sha256, Sha256.digest_bytes.
  repeat rewrite length_app. repeat rewrite be32_length. reflexivity.
Qed.

(** Induction three elements at a time, as [Base64.encode] recurses. *)
Lemma list_ind3 {A : Type} (P : list A -> Prop) :
  P [] -> (forall a, P [a]) -> (forall a b, P [a; b]) ->
  (forall a b c t, P t -> P (a :: b :: c :: t)) ->
  forall l, P l.
Proof.
  intros H0 H1 H2 H3.
  assert (Hall : forall l, P l /\ (forall a, P (a :: l)) /\ (forall a b, P (a :: b :: l))).
  { induction l as [|x l (IH0 & IH1 & IH2)].
    - repeat split; auto.
    - repeat split; auto. }
  intros l. apply Hall.
Qed.

Lemma base64_length (bytes : list Z) :
  List.length (Base64.encode bytes) = (4 * ((List.length bytes + 2) / 3))%nat.
Proof.
  induction bytes as [| a | a b | a b c t IH] using list_ind3; try reflexivity.
  cbn [Base64.encode List.length]. rewrite IH.
  replace (S (S (S (List.length t))) + 2)%nat with (1 * 3 + (List.length t + 2))%nat by lia.
  rewrite Nat.div_add_l by lia. lia.
Qed.

Lemma base64_digest_length (msg : list Z) :
  List.length (Base64.encode (Sha256.sha256 msg)) = 44%nat.
Proof. rewrite base64_length, sha256_length. reflexivity. Qed.

(** C10: for a non-negative length [L], [deterministicUniqueId(key, L)] has
    [min(L, 44)] characters, 44 being the length of the base64 text of a
    32-byte digest; the result is never padded up to [L]. *)
Theorem deterministicUniqueId_length (key : list Z) (L : Z) :
  0 <= L ->
  exists id, deterministicUniqueId key (Some L) = Some id
             /\ JsString.jslength id = Z.min L 44.
Proof.
  intros HL. unfold deterministicUniqueId, digest, update, createHash.
  cbn [algorithm buffer app String.eqb Ascii.eqb Bool.eqb andb option_map].
  eexists. split; [reflexivity|].
  rewrite filler_replace_all, substr_prefix. unfold JsString.jslength.
  rewrite length_take, length_map, base64_digest_length. lia.
Qed.

Lemma deterministicUniqueId_length_witness :
  0 <= 100 /\
  exists id, deterministicUniqueId [97; 98; 99] (Some 100) = Some id
             /\ JsString.jslength id = Z.min 100 44.
Proof.
  split; [lia|]. apply (deterministicUniqueId_length [97; 98; 99] 100). lia.
Defined.

Example deterministicUniqueId_long :
  DeterministicId.deterministicUniqueId [97; 98; 99] (Some 100)
  = Some (JsString.lit "ungWv48BzxpBQUDeXa4iI7ADYaOWF3qctBDxYfIAFa0x").
Proof. vm_compute. reflexivity. Qed.

End DeterministicIdFacts.

Section PromiseGuardFacts.
Import Js PromiseGuard.

Ltac fields :=
  cbn [hasFulfilled timeout host settle_calls returned operation_observed errorMessage
       set_host set_timeout set_hasFulfilled set_operation_observed
       call_resolve call_reject pending next_id clearTimeout] in *.

Ltac step_cases H :=
  match type of H with
  | step ?st ?e = Some _ =>
      destruct e as [v | r | id]; cbn [step] in H;
      [ destruct (operation_observed st) eqn:?; [discriminate H | injection H as <-]
      | destruct (operation_observed st) eqn:?; [discriminate H | injection H as <-]
      | destruct (fire id (host st)) as [h'|] eqn:?; [| discriminate H];
        destruct (decide (timeout st = Some id)); injection H as <- ]
  end.

Lemma fire_lookup (id : nat) (t t' : timers) (j : nat) :
  fire id t = Some t' ->
  is_Some (pending t !! id)
  /\ pending t' !! j = (if decide (id = j) then None else pending t !! j).
Proof.
  unfold fire. destruct (pending t !! id) eqn:E; [|discriminate].
  intros [= <-]. split; [eauto|]. cbn. apply lookup_delete.
Qed.

Lemma timeoutPromise_armed (ms : Z) (msg : option string) (h : timers) :
  armed (next_id h) (timeoutPromise ms msg h).
Proof.
  unfold armed, timeoutPromise. cbn.
  repeat split; try reflexivity. rewrite lookup_insert_eq. eauto.
Qed.

Lemma timeoutPromise_message (ms : Z) (msg : option string) (h : timers) :
  errorMessage (timeoutPromise ms msg h)
  = match msg with Some m => m | None => "Promise has timed-out"%string end.
Proof. reflexivity. Qed.

Lemma armed_foreign (own : nat) (st st' : state) (e : event) :
  armed own st -> foreign_timer own e -> step st e = Some st' ->
  armed own st' /\ errorMessage st' = errorMessage st.
Proof.
  intros (Hf & Ht & Hp & Hc & Hr & Ho) (id & -> & Hne) Hstep.
  cbn [step] in Hstep.
  destruct (fire id (host st)) as [h'|] eqn:Hfire; [|discriminate].
  destruct (fire_lookup _ _ _ own Hfire) as [_ Hlk].
  destruct (decide (timeout st = Some id)) as [Heq|_].
  { rewrite Ht in Heq. congruence. }
  injection Hstep as <-. unfold armed. fields. split; [|reflexivity].
  repeat split; try assumption.
  rewrite Hlk. destruct (decide (id = own)); [contradiction | assumption].
Qed.

Lemma armed_run_foreign (own : nat) (pre : list event) :
  Forall (foreign_timer own) pre ->
  forall st rest s, armed own st -> run st (pre ++ rest) = Some s ->
  exists st', armed own st' /\ errorMessage st' = errorMessage st /\ run st' rest = Some s.
Proof.
  induction 1 as [|e pre He _ IH]; intros st rest s Harmed Hrun.
  - exists st. auto.
  - cbn [app run] in Hrun. destruct (step st e) as [st1|] eqn:Hstep; [|discriminate].
    destruct (armed_foreign _ _ _ _ Harmed He Hstep) as [Harmed1 Hmsg1].
    destruct (IH _ _ _ Harmed1 Hrun) as (st' & ? & ? & ?).
    exists st'. split; [assumption | split; [congruence | assumption]].
Qed.

(** Once the flag is set nothing calls a resolving function any more, and
    a cleared timer stays cleared. *)
Lemma settled_step (own : nat) (st st' : state) (e : event) :
  hasFulfilled st = true -> step st e = Some st' ->
  hasFulfilled st' = true /\ settle_calls st' = settle_calls st
  /\ returned st' = returned st
  /\ (pending (host st) !! own = None -> pending (host st') !! own = None).
Proof.
  intros Hf Hstep. step_cases Hstep; unfold callback; cbn; rewrite Hf; cbn;
    repeat split; try assumption; try (intros; assumption).
  all: intros Hnone;
    match goal with
    | Hfire : fire _ _ = Some _ |- _ =>
        destruct (fire_lookup _ _ _ own Hfire) as [_ ->]; case_decide; auto
    end.
Qed.

Lemma settled_run (own : nat) (es : list event) :
  forall st s, hasFulfilled st = true -> run st es = Some s ->
  hasFulfilled s = true /\ settle_calls s = settle_calls st
  /\ returned s = returned st
  /\ (pending (host st) !! own = None -> pending (host s) !! own = None).
Proof.
  induction es as [|e es IH]; intros st s Hf Hrun.
  - injection Hrun as <-. auto.
  - cbn [run] in Hrun. destruct (step st e) as [st1|] eqn:Hstep; [|discriminate].
    destruct (settled_step own _ _ _ Hf Hstep) as (Hf1 & Hc1 & Hr1 & Hp1).
    destruct (IH _ _ Hf1 Hrun) as (Hf2 & Hc2 & Hr2 & Hp2).
    repeat split; [assumption | congruence | congruence | auto].
Qed.

(** The first call of [callback] settles the promise and clears the timer. *)
Lemma callback_armed (own : nat) (err result : value) (st : state) :
  hasFulfilled st = false -> timeout st = Some own ->
  settle_calls st = [] -> returned st = Pending ->
  let st' := callback err result st in
  hasFulfilled st' = true
  /\ pending (host st') !! own = None
  /\ settle_calls st' = [if truthy err then Reject err else Resolve result]
  /\ returned st' = (if truthy err then Rejected err else Fulfilled result).
Proof.
  intros Hf Ht Hc Hr. unfold callback. rewrite Hf, Ht.
  destruct (truthy err); cbn; rewrite Hc, Hr; cbn;
    repeat split; apply lookup_delete_eq.
Qed.

Lemma callback_unsettled (err result : value) (st : state) :
  hasFulfilled st = false -> settle_calls st = [] ->
  settles_at_most_once (callback err result st).
Proof.
  intros Hf Hc. right. unfold callback. rewrite Hf.
  destruct (truthy err); fields; rewrite Hc; split; reflexivity.
Qed.

Lemma at_most_once_step (st st' : state) (e : event) :
  settles_at_most_once st -> step st e = Some st' -> settles_at_most_once st'.
Proof.
  intros [[Hf Hc] | [Hf Hc]] Hstep.
  - step_cases Hstep; try (apply callback_unsettled; assumption).
    left. split; assumption.
  - destruct (settled_step 0%nat _ _ _ Hf Hstep) as (Hf' & Hc' & _).
    right. split; [assumption | congruence].
Qed.

Lemma at_most_once_run (es : list event) :
  forall st s, settles_at_most_once st -> run st es = Some s -> settles_at_most_once s.
Proof.
  induction es as [|e es IH]; intros st s Hinv Hrun.
  - injection Hrun as <-. assumption.
  - cbn [run] in Hrun. destruct (step st e) as [st1|] eqn:Hstep; [|discriminate].
    eapply IH; [eapply at_most_once_step|]; eassumption.
Qed.

Lemma start_at_most_once (ms : Z) (msg : option string) (h : timers) :
  settles_at_most_once (timeoutPromise ms msg h).
Proof. left. split; reflexivity. Qed.

(** The first event that concerns the guarded promise decides: the state
    after [callback err result] has run in an armed state, and after any
    further events. *)
Lemma decided_by_first (own : nat) (st : state) (pre rest : list event)
    (e : event) (err result : value) (s : state) :
  armed own st -> Forall (foreign_timer own) pre ->
  (forall st', armed own st' -> errorMessage st' = errorMessage st ->
     exists st0, hasFulfilled st0 = false /\ timeout st0 = Some own
                 /\ settle_calls st0 = [] /\ returned st0 = Pending
                 /\ step st' e = Some (callback err result st0)) ->
  run st (pre ++ e :: rest) = Some s ->
  pending (host s) !! own = None
  /\ settle_calls s = [if truthy err then Reject err else Resolve result]
  /\ returned s = (if truthy err then Rejected err else Fulfilled result).
Proof.
  intros Harmed Hpre Hstep Hrun.
  destruct (armed_run_foreign own pre Hpre _ _ _ Harmed Hrun) as (st' & Harmed' & Hmsg & Hrun').
  destruct (Hstep st' Harmed' Hmsg) as (st0 & Hf & Ht & Hc & Hr & He).
  cbn [run] in Hrun'. rewrite He in Hrun'.
  destruct (callback_armed own err result st0 Hf Ht Hc Hr) as (Hf1 & Hp1 & Hc1 & Hr1).
  destruct (settled_run own rest _ _ Hf1 Hrun') as (_ & Hc2 & Hr2 & Hp2).
  split; [auto | split; congruence].
Qed.

(** C1: [timeoutPromise] settles the returned promise at most once, whatever
    happens and in whatever order.  When the wrapped promise is fulfilled
    before the timer fires, the single call is [resolve(result)] and the
    timer is no longer pending; when the timer fires first, the single call
    is [reject(new Error(message))], with the default message when none was
    given; events that come after the first are discarded. *)
Theorem timeoutPromise_settles_once (ms : Z) (msg : option string) (h : timers) :
  let own := next_id h in
  let start := timeoutPromise ms msg h in
  let message := match msg with Some m => m | None => "Promise has timed-out"%string end in
  (forall es s, run start es = Some s -> (List.length (settle_calls s) <= 1)%nat)
  /\ (forall pre result rest s,
        Forall (foreign_timer own) pre ->
        run start (pre ++ OperationFulfilled result :: rest) = Some s ->
        settle_calls s = [Resolve result] /\ returned s = Fulfilled result
        /\ pending (host s) !! own = None)
  /\ (forall pre rest s,
        Forall (foreign_timer own) pre ->
        run start (pre ++ TimerFired own :: rest) = Some s ->
        settle_calls s = [Reject (VError message)]
        /\ returned s = Rejected (VError message)).
Proof.
  intros own start message.
  pose proof (timeoutPromise_armed ms msg h) as Harmed. fold own start in Harmed.
  split; [|split].
  - intros es s Hrun.
    destruct (at_most_once_run es _ _ (start_at_most_once ms msg h) Hrun) as [[_ ->] | [_ ->]];
      cbn; lia.
  - intros pre result rest s Hpre Hrun.
    assert (Hstep : forall st', armed own st' -> errorMessage st' = errorMessage start ->
              exists st0, hasFulfilled st0 = false /\ timeout st0 = Some own
                 /\ settle_calls st0 = [] /\ returned st0 = Pending
                 /\ step st' (OperationFulfilled result) = Some (callback VNull result st0)).
    { intros st' (Hf & Ht & _ & Hc & Hr & Ho) _.
      exists (set_operation_observed true st'). cbn [step]. rewrite Ho. auto. }
    destruct (decided_by_first own start pre rest _ _ _ s Harmed Hpre Hstep Hrun)
      as (Hp & Hc & Hr). auto.
  - intros pre rest s Hpre Hrun.
    assert (Hstep : forall st', armed own st' -> errorMessage st' = errorMessage start ->
              exists st0, hasFulfilled st0 = false /\ timeout st0 = Some own
                 /\ settle_calls st0 = [] /\ returned st0 = Pending
                 /\ step st' (TimerFired own)
                    = Some (callback (VError message) VUndefined st0)).
    { intros st' (Hf & Ht & [d Hd] & Hc & Hr & Ho) Hmsg.
      exists (set_host {| pending := delete own (pending (host st'));
                          next_id := next_id (host st') |} st').
      cbn [step]. unfold fire. rewrite Hd.
      destruct (decide (timeout st' = Some own)) as [_|Hne]; [|contradiction].
      rewrite Hmsg. subst start. rewrite timeoutPromise_message. auto. }
    destruct (decided_by_first own start pre rest _ _ _ s Harmed Hpre Hstep Hrun)
      as (Hp & Hc & Hr). auto.
Qed.

Lemma timeoutPromise_settles_once_witness :
  exists s,
    run (timeoutPromise 10 None (no_timers 1))
        ([] ++ TimerFired 1 :: [OperationFulfilled (VNumber 7)]) = Some s
    /\ settle_calls s = [Reject (VError "Promise has timed-out")].
Proof.
  eexists. split; [vm_compute; reflexivity|].
  refine (proj1 (proj2 (proj2 (timeoutPromise_settles_once 10 None (no_timers 1)))
                  [] [OperationFulfilled (VNumber 7)] _ (List.Forall_nil _) _)).
  vm_compute. reflexivity.
Defined.

Example timeoutPromise_timer_cannot_fire_after_success :
  run (timeoutPromise 1000 None (no_timers 1)) [OperationFulfilled (VNumber 7); TimerFired 1]
  = None.
Proof. vm_compute. reflexivity. Qed.

(** C9: a rejection of the wrapped promise that arrives first goes through
    [callback(reason)]: with a falsy reason ([null], [undefined], ...) the
    returned promise is resolved with [undefined]; only a truthy reason is
    passed on to [reject]. *)
Theorem timeoutPromise_falsy_rejection (ms : Z) (msg : option string) (h : timers)
    (pre rest : list event) (reason : value) (s : state) :
  Forall (foreign_timer (next_id h)) pre ->
  run (timeoutPromise ms msg h) (pre ++ OperationRejected reason :: rest) = Some s ->
  (truthy reason = false ->
     settle_calls s = [Resolve VUndefined] /\ returned s = Fulfilled VUndefined)
  /\ (truthy reason = true ->
     settle_calls s = [Reject reason] /\ returned s = Rejected reason).
Proof.
  intros Hpre Hrun.
  assert (Hstep : forall st', armed (next_id h) st' ->
            errorMessage st' = errorMessage (timeoutPromise ms msg h) ->
            exists st0, hasFulfilled st0 = false /\ timeout st0 = Some (next_id h)
               /\ settle_calls st0 = [] /\ returned st0 = Pending
               /\ step st' (OperationRejected reason) = Some (callback reason VUndefined st0)).
  { intros st' (Hf & Ht & _ & Hc & Hr & Ho) _.
    exists (set_operation_observed true st'). cbn [step]. rewrite Ho. auto. }
  destruct (decided_by_first (next_id h) _ pre rest _ _ _ s
              (timeoutPromise_armed ms msg h) Hpre Hstep Hrun) as (_ & Hc & Hr).
  split; intros Htruthy; rewrite Htruthy in Hc, Hr; auto.
Qed.

Lemma timeoutPromise_falsy_rejection_witness :
  exists s,
    run (timeoutPromise 10 None (no_timers 1)) ([] ++ OperationRejected VNull :: []) = Some s
    /\ settle_calls s = [Resolve VUndefined] /\ returned s = Fulfilled VUndefined.
Proof.
  eexists. split; [vm_compute; reflexivity|].
  refine (proj1 (timeoutPromise_falsy_rejection 10 None (no_timers 1) [] [] VNull _
                   (List.Forall_nil _) _) eq_refl).
  vm_compute. reflexivity.
Defined.

End PromiseGuardFacts.

Section RepeatingTaskFacts.
Import Js RepeatingTask.

Lemma cancel_completes (st : state) :
  betterClearInterval log_exception returned_handle st = Ok (cancelled st).
Proof. reflexivity. Qed.

Lemma cancelled_idempotent (st : state) : cancelled (cancelled st) = cancelled st.
Proof.
  unfold cancelled. destruct st as [d r [id|] [p n] i l]; cbn; [|reflexivity].
  now rewrite delete_delete_eq.
Qed.

(** Without a pending timer the cancellation releases nothing. *)
Lemma cancelled_no_timer (st : state) :
  timer_pending st = false -> host (cancelled st) = host st.
Proof.
  unfold timer_pending, cancelled. destruct st as [d r [id|] [p n] i l]; cbn; [|reflexivity].
  intros H. apply bool_decide_eq_false in H.
  f_equal. apply delete_id. destruct (p !! id) eqn:E; [|reflexivity].
  exfalso. apply H. eauto.
Qed.

(** After a cancellation no event schedules anything. *)
Lemma stopped_step (st st' : state) (e : event) :
  isRunning st = false -> step st e = Some st' ->
  isRunning st' = false /\ next_id (host st') = next_id (host st)
  /\ pending (host st') ⊆ pending (host st)
  /\ timeoutId st' = timeoutId st /\ logged st' = logged st.
Proof.
  intros Hr Hstep. destruct e as [|id|]; cbn [step] in Hstep.
  - injection Hstep as <-. unfold callback. rewrite Hr. auto.
  - unfold fire in Hstep. destruct (pending (host st) !! id); [|discriminate].
    injection Hstep as <-. cbn. split_and!; try assumption; try reflexivity.
    apply delete_subseteq.
  - injection Hstep as <-. cbn. split_and!; try reflexivity.
    all: destruct (timeoutId st); cbn; try reflexivity; apply delete_subseteq.
Qed.

Lemma stopped_run (es : list event) :
  forall st s, isRunning st = false -> run st es = Some s ->
  isRunning s = false /\ next_id (host s) = next_id (host st)
  /\ pending (host s) ⊆ pending (host st)
  /\ timeoutId s = timeoutId st /\ logged s = logged st.
Proof.
  induction es as [|e es IH]; intros st s Hr Hrun.
  - injection Hrun as <-. auto.
  - cbn [run] in Hrun. destruct (step st e) as [st1|] eqn:Hstep; [|discriminate].
    destruct (stopped_step _ _ _ Hr Hstep) as (Hr1 & Hn1 & Hp1 & Ht1 & Hl1).
    destruct (IH _ _ Hr1 Hrun) as (Hr2 & Hn2 & Hp2 & Ht2 & Hl2).
    split_and!; [assumption | congruence | | congruence | congruence].
    etransitivity; eassumption.
Qed.

Lemma cancelled_fixpoint (st : state) :
  isRunning st = false ->
  match timeoutId st with
  | Some id => pending (host st) !! id = None
  | None => True
  end ->
  cancelled st = st.
Proof.
  unfold cancelled. destruct st as [d r [id|] [p n] i l]; cbn; intros -> H; [|reflexivity].
  now rewrite delete_id.
Qed.

Lemma cancelled_timer_released (st : state) :
  match timeoutId (cancelled st) with
  | Some id => pending (host (cancelled st)) !! id = None
  | None => True
  end.
Proof.
  unfold cancelled. destruct st as [d r [id|] [p n] i l]; cbn; [|exact I].
  apply lookup_delete_eq.
Qed.

(** C2: take any state a task started by [betterSetInterval] can be in and
    pass its handle to [betterClearInterval].  The call returns normally and
    logs nothing.  From then on, whatever happens (the continuation is
    called late, timers fire, the handle is cancelled again), a call of the
    continuation changes nothing, no timer is ever created, and another
    cancellation returns normally and leaves the state as it is.  When no
    timer is pending at the time of the cancellation (the work function is
    executing), the timers are left as they are. *)
Theorem betterClearInterval_stops_task
    (delayMillis : Z) (first_id : nat) (es : list event) (s : state) :
  run (betterSetInterval delayMillis first_id) es = Some s ->
  betterClearInterval log_exception returned_handle s = Ok (cancelled s)
  /\ logged (cancelled s) = logged s
  /\ (forall es' s', run (cancelled s) es' = Some s' ->
        step s' Continuation = Some s'
        /\ next_id (host s') = next_id (host s)
        /\ pending (host s') ⊆ pending (host (cancelled s))
        /\ betterClearInterval log_exception returned_handle s' = Ok s')
  /\ betterClearInterval log_exception returned_handle (cancelled s) = Ok (cancelled s)
  /\ (timer_pending s = false -> host (cancelled s) = host s).
Proof.
  intros _. split_and!.
  - apply cancel_completes.
  - reflexivity.
  - intros es' s' Hrun.
    assert (Hstopped : isRunning (cancelled s) = false) by reflexivity.
    destruct (stopped_run es' _ _ Hstopped Hrun) as (Hr & Hn & Hp & Ht & Hl).
    split_and!.
    + cbn [step]. unfold callback. now rewrite Hr.
    + rewrite Hn. unfold cancelled. destruct (timeoutId s); reflexivity.
    + exact Hp.
    + rewrite cancel_completes. f_equal. apply cancelled_fixpoint; [exact Hr|].
      rewrite Ht. pose proof (cancelled_timer_released s) as Hrel.
      destruct (timeoutId (cancelled s)) as [id|]; [|exact I].
      pose proof (Hp id) as Hsub. rewrite Hrel in Hsub.
      destruct (pending (host s') !! id); [contradiction | reflexivity].
  - rewrite cancel_completes. f_equal. apply cancelled_idempotent.
  - apply cancelled_no_timer.
Qed.

Lemma betterClearInterval_stops_task_witness :
  exists s,
    run (betterSetInterval 50 1) [Continuation; TimerFired 1] = Some s
    /\ betterClearInterval log_exception returned_handle s = Ok (cancelled s)
    /\ timer_pending s = false.
Proof.
  eexists. split; [vm_compute; reflexivity|].
  split; [| vm_compute; reflexivity].
  refine (proj1 (betterClearInterval_stops_task 50 1 [Continuation; TimerFired 1] _ _)).
  vm_compute. reflexivity.
Defined.

Lemma idle_run (es : list event) :
  forall st s', isRunning st = false -> pending (host st) = ∅ ->
  run st es = Some s' ->
  invocations s' = invocations st /\ pending (host s') = ∅.
Proof.
  induction es as [|e es IH]; intros st s' Hr Hempty Hrun.
  - injection Hrun as <-. auto.
  - cbn [run] in Hrun. destruct (step st e) as [st1|] eqn:Hstep; [|discriminate].
    assert (H1 : invocations st1 = invocations st /\ pending (host st1) = ∅
                 /\ isRunning st1 = false).
    { destruct e as [|id|]; cbn [step] in Hstep.
      - injection Hstep as <-. unfold callback. rewrite Hr. auto.
      - unfold fire in Hstep. rewrite Hempty, lookup_empty in Hstep. discriminate.
      - injection Hstep as <-. cbn. split_and!; try reflexivity.
        destruct (timeoutId st); cbn; [rewrite Hempty; apply delete_empty | exact Hempty]. }
    destruct H1 as (Hi1 & He1 & Hr1).
    destruct (IH _ _ Hr1 He1 Hrun) as [Hi2 He2]. split; congruence.
Qed.

(** When the only pending timer is the one [timeoutId] names, which is the
    case as long as the work function calls its continuation once per
    execution, nothing is pending after the cancellation and the work
    function is never called again. *)
Lemma cancelled_never_invoked_again (s : state) (es : list event) (s' : state) :
  (forall id, is_Some (pending (host s) !! id) -> timeoutId s = Some id) ->
  run (cancelled s) es = Some s' ->
  invocations s' = invocations s /\ pending (host s') = ∅.
Proof.
  intros Hone Hrun.
  assert (Hempty : pending (host (cancelled s)) = ∅).
  { apply map_eq. intros id. rewrite lookup_empty.
    unfold cancelled. destruct s as [d r t [p n] i l]; cbn in *.
    destruct (p !! id) eqn:E.
    - rewrite (Hone id (ex_intro _ _ E)). cbn. apply lookup_delete_eq.
    - destruct t; cbn; [|exact E].
      rewrite lookup_delete. case_decide; [reflexivity | exact E]. }
  apply (idle_run es (cancelled s) s' eq_refl Hempty Hrun).
Qed.

Example cancel_before_first_continuation :
  option_map (fun s => (invocations s, isRunning s, map_to_list (pending (host s))))
    (run (betterSetInterval 50 1) [Cancel; Continuation; Cancel])
  = Some (1%nat, false, []).
Proof. vm_compute. reflexivity. Qed.

End RepeatingTaskFacts.

Section ReadinessPromiseFacts.
Import Js ReadinessPromise.

Example listening_inside_listen :
  let st := promisifyServerListen emitter_server 8080
              (fresh_emitter [("close"%string, Foreign 1)] [("listening"%string, VUndefined)]) in
  returned st = Fulfilled VUndefined
  /\ registered (srv st) = [("close"%string, Foreign 1)]
  /\ calls (srv st) = [COn "error" OnError; COn "listening" OnListening; CListen 8080;
                       CRemoveListener "error" OnError;
                       CRemoveListener "listening" OnListening].
Proof. vm_compute. repeat split. Qed.

Example error_after_listen :
  let st := later emitter_server
              [("error"%string, VError "EADDRINUSE"); ("listening"%string, VUndefined)]
              (promisifyServerListen emitter_server 8080 (fresh_emitter [] [])) in
  returned st = Rejected (VError "EADDRINUSE")
  /\ settle_calls st = [Reject (VError "EADDRINUSE")]
  /\ registered (srv st) = [].
Proof. vm_compute. repeat split. Qed.

Lemma call_all_foreign {S : Type} (server : Server S) (ls : list listener)
    (arg : value) (st : state S) :
  forallb is_foreign ls = true -> call_all server ls arg st = Ok st.
Proof.
  induction ls as [|l ls IH]; intros H; [reflexivity|].
  cbn in H. apply andb_prop in H as [Hl Hls].
  destruct l; try discriminate. cbn. auto.
Qed.

Lemma call_all_app_foreign {S : Type} (server : Server S) (fs ls : list listener)
    (arg : value) (st : state S) :
  forallb is_foreign fs = true ->
  call_all server (fs ++ ls) arg st = call_all server ls arg st.
Proof.
  induction fs as [|l fs IH]; intros H; [reflexivity|].
  cbn in H. apply andb_prop in H as [Hl Hls].
  destruct l; try discriminate. cbn. auto.
Qed.

Lemma listeners_in_foreign (ev : string) (others : list (string * listener)) :
  all_foreign others -> forallb is_foreign (listeners_in ev others) = true.
Proof.
  induction 1 as [|p others Hp _ IH]; [reflexivity|].
  unfold listeners_in in *. cbn. destruct (String.eqb (fst p) ev); cbn; [|exact IH].
  now rewrite Hp, IH.
Qed.

Lemma listeners_in_app (ev : string) (l1 l2 : list (string * listener)) :
  listeners_in ev (l1 ++ l2) = listeners_in ev l1 ++ listeners_in ev l2.
Proof. unfold listeners_in. now rewrite List.filter_app, map_app. Qed.

Lemma remove_first_not_in (x : string * listener) (l : list (string * listener)) :
  ~ In x l -> remove_first x l = l.
Proof.
  induction l as [|y l IH]; intros Hx; [reflexivity|].
  cbn. destruct (decide (x = y)) as [->|Hne]; [exfalso; apply Hx; now left|].
  f_equal. apply IH. intros Hin. apply Hx. now right.
Qed.

Lemma remove_last_snoc (x : string * listener) (l : list (string * listener)) :
  remove_last x (l ++ [x]) = l.
Proof.
  unfold remove_last. rewrite rev_app_distr. cbn.
  destruct (decide (x = x)); [apply rev_involutive | contradiction].
Qed.

Lemma remove_last_snoc_ne (x y : string * listener) (l : list (string * listener)) :
  x <> y -> remove_last x (l ++ [y]) = remove_last x l ++ [y].
Proof.
  intros Hne. unfold remove_last. rewrite rev_app_distr. cbn.
  destruct (decide (x = y)); [contradiction | reflexivity].
Qed.

Lemma cleanup_ready (others : list (string * listener)) (port : Z) (st : state emitter) :
  ready others port st ->
  exists s', removeListeners emitter_server st = Ok (set_srv s' st)
             /\ registered s' = others
             /\ calls s' = setup_calls port ++ cleanup_calls.
Proof.
  intros (Hreg & Hcalls & _ & _).
  unfold removeListeners, on_server. cbn. eexists. split; [reflexivity|]. cbn.
  rewrite Hreg, Hcalls. split; [|reflexivity].
  unfold own_listeners.
  change (others ++ [("error"%string, OnError); ("listening"%string, OnListening)])
    with (others ++ [("error"%string, OnError)] ++ [("listening"%string, OnListening)]).
  rewrite app_assoc, remove_last_snoc_ne by discriminate.
  rewrite remove_last_snoc. apply remove_last_snoc.
Qed.

Lemma emit_ready_decides (others : list (string * listener)) (port : Z)
    (st : state emitter) (ev : string * value) (c : settle_call) :
  all_foreign others -> ready others port st -> decision ev = Some c ->
  exists st', emit emitter_server ev st = Ok st' /\ settled_by others port c st'.
Proof.
  intros Hothers Hready Hdec.
  destruct (cleanup_ready _ _ _ Hready) as (s' & Hclean & Hreg' & Hcalls').
  destruct Hready as (Hreg & Hcalls & Hret & Hset).
  unfold emit. change (listeners emitter_server (fst ev) (srv st))
    with (listeners_in (fst ev) (registered (srv st))).
  rewrite Hreg, listeners_in_app.
  rewrite call_all_app_foreign by (now apply listeners_in_foreign).
  unfold decision in Hdec. unfold listeners_in, own_listeners. cbn [List.filter fst snd map].
  destruct (String.eqb_spec (fst ev) "error") as [He|He].
  - injection Hdec as <-. rewrite He. cbn [String.eqb Ascii.eqb Bool.eqb map snd call_all call].
    unfold onError. rewrite Hclean. cbn [bind]. eexists. split; [reflexivity|].
    unfold settled_by. cbn. rewrite Hret, Hset. auto.
  - destruct (String.eqb_spec (fst ev) "listening") as [Hl|Hl]; [|discriminate].
    injection Hdec as <-. rewrite Hl. cbn [String.eqb Ascii.eqb Bool.eqb map snd call_all call].
    unfold onListening. rewrite Hclean. cbn [bind]. eexists. split; [reflexivity|].
    unfold settled_by. cbn. rewrite Hret, Hset. auto.
Qed.

Lemma emit_ready_unrelated (others : list (string * listener)) (port : Z)
    (st : state emitter) (ev : string * value) :
  all_foreign others -> ready others port st -> unrelated ev ->
  emit emitter_server ev st = Ok st.
Proof.
  intros Hothers (Hreg & _) [He Hl].
  unfold emit. change (listeners emitter_server (fst ev) (srv st))
    with (listeners_in (fst ev) (registered (srv st))).
  rewrite Hreg. apply call_all_foreign. rewrite listeners_in_app, forallb_app.
  rewrite listeners_in_foreign by assumption.
  unfold listeners_in, own_listeners. cbn [List.filter fst snd].
  apply String.eqb_neq in He, Hl.
  rewrite (String.eqb_sym "error"), (String.eqb_sym "listening"). now rewrite He, Hl.
Qed.

Lemma emit_settled (others : list (string * listener)) (port : Z) (c : settle_call)
    (st : state emitter) (ev : string * value) :
  all_foreign others -> settled_by others port c st ->
  emit emitter_server ev st = Ok st.
Proof.
  intros Hothers (Hreg & _).
  unfold emit. change (listeners emitter_server (fst ev) (srv st))
    with (listeners_in (fst ev) (registered (srv st))).
  rewrite Hreg. apply call_all_foreign. now apply listeners_in_foreign.
Qed.

Lemma decision_unrelated (ev : string * value) :
  decision ev = None <-> unrelated ev.
Proof.
  unfold decision, unrelated.
  destruct (String.eqb_spec (fst ev) "error"); [split; [discriminate | tauto]|].
  destruct (String.eqb_spec (fst ev) "listening"); [split; [discriminate | tauto]|].
  tauto.
Qed.

Lemma emit_keeps (others : list (string * listener)) (port : Z)
    (st : state emitter) (ev : string * value) :
  all_foreign others -> listening_or_done others port st ->
  exists st', emit emitter_server ev st = Ok st' /\ listening_or_done others port st'.
Proof.
  intros Hothers [Hready | [c Hdone]].
  - destruct (decision ev) as [c|] eqn:Hdec.
    + destruct (emit_ready_decides _ _ _ _ _ Hothers Hready Hdec) as (st' & He & Hs).
      exists st'. split; [exact He | right; eauto].
    + exists st. split; [|now left].
      apply (emit_ready_unrelated others port); [assumption .. |].
      now apply decision_unrelated.
  - exists st. split; [|right; eauto]. now apply (emit_settled others port c).
Qed.

Lemma emit_all_later (others : list (string * listener)) (port : Z)
    (evs : list (string * value)) :
  all_foreign others ->
  forall st, listening_or_done others port st ->
  emit_all emitter_server evs st = Ok (later emitter_server evs st)
  /\ listening_or_done others port (later emitter_server evs st).
Proof.
  intros Hothers. induction evs as [|ev evs IH]; intros st Hinv; [now split|].
  destruct (emit_keeps _ _ _ ev Hothers Hinv) as (st' & He & Hinv').
  cbn [emit_all later]. rewrite He. cbn [bind state_of]. now apply IH.
Qed.

Lemma later_app {S : Type} (server : Server S) (evs1 evs2 : list (string * value)) :
  forall st, later server (evs1 ++ evs2) st = later server evs2 (later server evs1 st).
Proof. induction evs1 as [|ev evs1 IH]; intros st; [reflexivity | apply IH]. Qed.

Lemma later_unrelated (others : list (string * listener)) (port : Z)
    (pre : list (string * value)) (st : state emitter) :
  all_foreign others -> ready others port st -> Forall unrelated pre ->
  later emitter_server pre st = st.
Proof.
  intros Hothers Hready. induction 1 as [|ev pre Hev _ IH]; [reflexivity|].
  cbn [later]. now rewrite (emit_ready_unrelated others port st ev).
Qed.

Lemma later_settled (others : list (string * listener)) (port : Z) (c : settle_call)
    (evs : list (string * value)) (st : state emitter) :
  all_foreign others -> settled_by others port c st ->
  later emitter_server evs st = st.
Proof.
  intros Hothers Hdone. induction evs as [|ev evs IH]; [reflexivity|].
  cbn [later]. now rewrite (emit_settled others port c st ev).
Qed.

Lemma listening_state_ready (others : list (string * listener)) (port : Z) :
  ready others port (listening_state others port).
Proof. unfold ready. cbn. auto. Qed.

Lemma promisify_emitter (others : list (string * listener)) (port : Z)
    (sc : list (string * value)) :
  all_foreign others ->
  promisifyServerListen emitter_server port (fresh_emitter others sc)
  = later emitter_server sc (listening_state others port).
Proof.
  intros Hothers. unfold promisifyServerListen, executor, on_server, fresh_emitter.
  cbn [on listen emitter_server bind srv set_srv returned settle_calls
       registered calls script after emits throws].
  rewrite <- app_assoc. cbn [app].
  change (emit_all emitter_server sc _)
    with (emit_all emitter_server sc (listening_state others port)).
  destruct (emit_all_later others port sc Hothers _
              (or_introl (listening_state_ready others port))) as [-> _].
  reflexivity.
Qed.

Lemma decided_emitter (others : list (string * listener)) (port : Z)
    (pre rest : list (string * value)) (ev : string * value) (c : settle_call) :
  all_foreign others -> Forall unrelated pre -> decision ev = Some c ->
  settled_by others port c
    (later emitter_server (pre ++ ev :: rest) (listening_state others port)).
Proof.
  intros Hothers Hpre Hdec.
  pose proof (listening_state_ready others port) as Hready.
  rewrite later_app, (later_unrelated others port pre) by assumption.
  destruct (emit_ready_decides _ _ _ _ _ Hothers Hready Hdec) as (st' & He & Hs).
  cbn [later]. rewrite He. cbn [state_of].
  now rewrite (later_settled others port c).
Qed.

(** C4: on a server that is an event emitter, the promisified [listen]
    registers its two listeners and then calls [listen(port)].  Of the
    events the server emits, inside [listen] or later, the first ["error"]
    or ["listening"] settles the promise, by one call of [reject] with the
    emitted error or one call of [resolve]; both listeners are removed, and
    no event that follows changes the promise or calls a resolving
    function again. *)
Theorem promisifyServerListen_settles_once
    (others : list (string * listener)) (port : Z) (sc lt : list (string * value)) :
  all_foreign others ->
  let final := later emitter_server lt
                 (promisifyServerListen emitter_server port (fresh_emitter others sc)) in
  firstn 3 (calls (srv final))
  = [COn "error" OnError; COn "listening" OnListening; CListen port]
  /\ (forall pre err rest,
        sc ++ lt = pre ++ ("error"%string, err) :: rest -> Forall unrelated pre ->
        returned final = Rejected err /\ settle_calls final = [Reject err]
        /\ registered (srv final) = others)
  /\ (forall pre arg rest,
        sc ++ lt = pre ++ ("listening"%string, arg) :: rest -> Forall unrelated pre ->
        returned final = Fulfilled VUndefined /\ settle_calls final = [Resolve VUndefined]
        /\ registered (srv final) = others).
Proof.
  intros Hothers final.
  assert (Hfinal : final = later emitter_server (sc ++ lt) (listening_state others port)).
  { subst final. now rewrite promisify_emitter, later_app. }
  split_and!.
  - destruct (emit_all_later others port (sc ++ lt) Hothers _
                (or_introl (listening_state_ready others port))) as [_ Hinv].
    rewrite <- Hfinal in Hinv.
    destruct Hinv as [(_ & -> & _) | (c & _ & -> & _)]; reflexivity.
  - intros pre err rest Heq Hpre. rewrite Hfinal, Heq.
    destruct (decided_emitter others port pre rest ("error"%string, err) (Reject err)
                Hothers Hpre eq_refl)
      as (Hreg & _ & Hret & Hset). auto.
  - intros pre arg rest Heq Hpre. rewrite Hfinal, Heq.
    destruct (decided_emitter others port pre rest ("listening"%string, arg)
                (Resolve VUndefined) Hothers Hpre eq_refl)
      as (Hreg & _ & Hret & Hset). auto.
Qed.

Lemma promisifyServerListen_settles_once_witness :
  let final := later emitter_server [("error"%string, VError "late")]
                 (promisifyServerListen emitter_server 8080
                    (fresh_emitter [("close"%string, Foreign 1)]
                       [("close"%string, VUndefined); ("listening"%string, VUndefined)])) in
  all_foreign [("close"%string, Foreign 1)]
  /\ returned final = Fulfilled VUndefined
  /\ settle_calls final = [Resolve VUndefined]
  /\ registered (srv final) = [("close"%string, Foreign 1)].
Proof.
  intros final.
  assert (Hothers : all_foreign [("close"%string, Foreign 1)]).
  { constructor; [reflexivity | constructor]. }
  split; [exact Hothers|].
  refine (proj2 (proj2 (promisifyServerListen_settles_once
            [("close"%string, Foreign 1)] 8080
            [("close"%string, VUndefined); ("listening"%string, VUndefined)]
            [("error"%string, VError "late")] Hothers))
          [("close"%string, VUndefined)] VUndefined [("error"%string, VError "late")]
          eq_refl _).
  constructor; [split; discriminate | constructor].
Defined.

End ReadinessPromiseFacts.

Section CleanupErrorFacts.
Import Js.

Lemma betterClearInterval_never_throws {W : Type}
    (log_exception : value -> string -> W -> W) (intervalID : RepeatingTask.handle W) (w : W) :
  exists w', RepeatingTask.betterClearInterval log_exception intervalID w = Ok w'.
Proof.
  destruct intervalID as [|[| |f]]; cbn; eauto.
  destruct (f w); eauto.
Qed.

Lemma onError_cleanup_throws {S : Type} (server : ReadinessPromise.Server S)
    (st : ReadinessPromise.state S) (err e : value) (s' : S) :
  ReadinessPromise.removeListener server "error" ReadinessPromise.OnError
    (ReadinessPromise.srv st) = Threw e s' ->
  ReadinessPromise.onError server err st = Threw e (ReadinessPromise.set_srv s' st).
Proof.
  intros H. unfold ReadinessPromise.onError, ReadinessPromise.removeListeners,
    ReadinessPromise.on_server. now rewrite H.
Qed.

Lemma onListening_cleanup_throws {S : Type} (server : ReadinessPromise.Server S)
    (st : ReadinessPromise.state S) (e : value) (s' : S) :
  ReadinessPromise.removeListener server "error" ReadinessPromise.OnError
    (ReadinessPromise.srv st) = Threw e s' ->
  ReadinessPromise.onListening server st = Threw e (ReadinessPromise.set_srv s' st).
Proof.
  intros H. unfold ReadinessPromise.onListening, ReadinessPromise.removeListeners,
    ReadinessPromise.on_server. now rewrite H.
Qed.

Lemma handlers_second_cleanup_throws {S : Type} (server : ReadinessPromise.Server S)
    (st : ReadinessPromise.state S) (err e : value) (s1 s2 : S) :
  ReadinessPromise.removeListener server "error" ReadinessPromise.OnError
    (ReadinessPromise.srv st) = Ok s1 ->
  ReadinessPromise.removeListener server "listening" ReadinessPromise.OnListening s1
    = Threw e s2 ->
  ReadinessPromise.onError server err st = Threw e (ReadinessPromise.set_srv s2 st)
  /\ ReadinessPromise.onListening server st = Threw e (ReadinessPromise.set_srv s2 st).
Proof.
  intros H1 H2. unfold ReadinessPromise.onError, ReadinessPromise.onListening,
    ReadinessPromise.removeListeners, ReadinessPromise.on_server.
  rewrite H1. cbn [bind ReadinessPromise.srv ReadinessPromise.set_srv]. rewrite H2.
  split; reflexivity.
Qed.

Lemma handlers_cleanup_succeeds {S : Type} (server : ReadinessPromise.Server S)
    (st : ReadinessPromise.state S) (err : value) (s1 s2 : S) :
  ReadinessPromise.removeListener server "error" ReadinessPromise.OnError
    (ReadinessPromise.srv st) = Ok s1 ->
  ReadinessPromise.removeListener server "listening" ReadinessPromise.OnListening s1
    = Ok s2 ->
  ReadinessPromise.onError server err st
  = Ok (ReadinessPromise.call_reject err (ReadinessPromise.set_srv s2 st))
  /\ ReadinessPromise.onListening server st
     = Ok (ReadinessPromise.call_resolve VUndefined (ReadinessPromise.set_srv s2 st)).
Proof.
  intros H1 H2. unfold ReadinessPromise.onError, ReadinessPromise.onListening,
    ReadinessPromise.removeListeners, ReadinessPromise.on_server.
  rewrite H1. cbn [bind ReadinessPromise.srv ReadinessPromise.set_srv]. rewrite H2.
  split; reflexivity.
Qed.

(** C5, as the code has it: [betterClearInterval] returns normally for every
    handle; an exception of the handle's [_betterClearInterval] is handed
    to [log.exception] with the effects made before the throw kept, and so
    is the TypeError of a property that cannot be called.
    [promisifyServerListen] has no such guard: when either of the two
    [removeListener] calls of the cleanup throws, the listener throws that
    exception to the emitter without calling a resolving function (the
    promise and the record of calls are as before); a resolving function is
    called only after both calls have returned. *)
Theorem cleanup_errors_by_design :
  (forall (W : Type) (log_exception : value -> string -> W -> W)
          (intervalID : RepeatingTask.handle W) (w : W),
      exists w', RepeatingTask.betterClearInterval log_exception intervalID w = Ok w')
  /\ (forall (W : Type) (log_exception : value -> string -> W -> W)
             (f : W -> result W) (w w1 : W) (e : value),
        f w = Threw e w1 ->
        RepeatingTask.betterClearInterval log_exception
          (RepeatingTask.Object (RepeatingTask.Method f)) w
        = Ok (log_exception e "_betterClearInterval() threw an exception!?" w1))
  /\ (forall (S : Type) (server : ReadinessPromise.Server S)
             (st : ReadinessPromise.state S) (err e : value) (s' : S),
        ReadinessPromise.removeListener server "error" ReadinessPromise.OnError
          (ReadinessPromise.srv st) = Threw e s' ->
        ReadinessPromise.onError server err st = Threw e (ReadinessPromise.set_srv s' st)
        /\ ReadinessPromise.onListening server st = Threw e (ReadinessPromise.set_srv s' st))
  /\ (forall (S : Type) (server : ReadinessPromise.Server S)
             (st : ReadinessPromise.state S) (err e : value) (s1 s2 : S),
        ReadinessPromise.removeListener server "error" ReadinessPromise.OnError
          (ReadinessPromise.srv st) = Ok s1 ->
        ReadinessPromise.removeListener server "listening" ReadinessPromise.OnListening s1
          = Threw e s2 ->
        ReadinessPromise.onError server err st = Threw e (ReadinessPromise.set_srv s2 st)
        /\ ReadinessPromise.onListening server st = Threw e (ReadinessPromise.set_srv s2 st))
  /\ (forall (S : Type) (server : ReadinessPromise.Server S)
             (st : ReadinessPromise.state S) (err : value) (s1 s2 : S),
        ReadinessPromise.removeListener server "error" ReadinessPromise.OnError
          (ReadinessPromise.srv st) = Ok s1 ->
        ReadinessPromise.removeListener server "listening" ReadinessPromise.OnListening s1
          = Ok s2 ->
        ReadinessPromise.onError server err st
        = Ok (ReadinessPromise.call_reject err (ReadinessPromise.set_srv s2 st))
        /\ ReadinessPromise.onListening server st
           = Ok (ReadinessPromise.call_resolve VUndefined (ReadinessPromise.set_srv s2 st)))
  /\ (forall (S : Type) (st : ReadinessPromise.state S) (s' : S),
        ReadinessPromise.returned (ReadinessPromise.set_srv s' st)
        = ReadinessPromise.returned st
        /\ ReadinessPromise.settle_calls (ReadinessPromise.set_srv s' st)
           = ReadinessPromise.settle_calls st)
  /\ (forall (W : Type) (log_exception : value -> string -> W -> W) (w : W),
        exists e,
          RepeatingTask.betterClearInterval log_exception
            (RepeatingTask.Object RepeatingTask.NotCallable) w
          = Ok (log_exception e "_betterClearInterval() threw an exception!?" w)).
Proof.
  split_and!.
  - intros. apply betterClearInterval_never_throws.
  - intros W log_exception f w w1 e H. cbn. now rewrite H.
  - intros S server st err e s' H. split.
    + now apply onError_cleanup_throws.
    + now apply onListening_cleanup_throws.
  - intros S server st err e s1 s2 H1 H2.
    exact (handlers_second_cleanup_throws server st err e s1 s2 H1 H2).
  - intros S server st err s1 s2 H1 H2.
    exact (handlers_cleanup_succeeds server st err s1 s2 H1 H2).
  - intros S st s'. split; reflexivity.
  - intros W log_exception w. eexists. reflexivity.
Qed.

Lemma cleanup_errors_by_design_witness :
  let st := RepeatingTask.betterSetInterval 50 1 in
  let ready := ReadinessPromise.promisifyServerListen
                 ReadinessFailures.second_removal_fails_server 8080
                 (ReadinessPromise.fresh_emitter [] []) in
  (RepeatingTask.throwing_method st
   = Threw (VError "bad handle") (RepeatingTask.set_isRunning false st)
   /\ RepeatingTask.betterClearInterval RepeatingTask.log_exception
        (RepeatingTask.Object (RepeatingTask.Method RepeatingTask.throwing_method)) st
      = Ok (RepeatingTask.log_exception (VError "bad handle")
              "_betterClearInterval() threw an exception!?"
              (RepeatingTask.set_isRunning false st)))
  /\ exists s1 s2,
       ReadinessPromise.removeListener ReadinessFailures.second_removal_fails_server
         "error" ReadinessPromise.OnError (ReadinessPromise.srv ready) = Ok s1
       /\ ReadinessPromise.removeListener ReadinessFailures.second_removal_fails_server
            "listening" ReadinessPromise.OnListening s1
          = Threw (VError "removeListener failed") s2
       /\ ReadinessPromise.onError ReadinessFailures.second_removal_fails_server
            (VError "EADDRINUSE") ready
          = Threw (VError "removeListener failed") (ReadinessPromise.set_srv s2 ready).
Proof.
  intros st ready. split.
  - split; [reflexivity|].
    exact (proj1 (proj2 cleanup_errors_by_design) _ RepeatingTask.log_exception
             RepeatingTask.throwing_method st _ _ eq_refl).
  - do 2 eexists. split; [reflexivity|]. split; [reflexivity|].
    refine (proj1 (proj1 (proj2 (proj2 (proj2 cleanup_errors_by_design)))
                     _ ReadinessFailures.second_removal_fails_server ready
                     (VError "EADDRINUSE") _ _ _ eq_refl eq_refl)).
Defined.

Example second_removeListener_exception_propagates :
  let st := ReadinessPromise.promisifyServerListen
              ReadinessFailures.second_removal_fails_server 8080
              (ReadinessPromise.fresh_emitter [] []) in
  exists st',
    ReadinessPromise.emit ReadinessFailures.second_removal_fails_server
      ("error"%string, VError "EADDRINUSE") st
    = Threw (VError "removeListener failed") st'
    /\ ReadinessPromise.returned st' = Pending
    /\ ReadinessPromise.settle_calls st' = [].
Proof. eexists. vm_compute. repeat split. Qed.

(** C5 as stated fails for the listener cleanup: on a server whose
    [removeListener] throws, the ["error"] event makes the listener throw
    to the emitter, and the promise stays pending. *)
Lemma removeListener_exception_propagates :
  let st := ReadinessPromise.promisifyServerListen ReadinessPromise.faulty_server 8080
              (ReadinessPromise.fresh_emitter [] []) in
  exists st',
    ReadinessPromise.emit ReadinessPromise.faulty_server
      ("error"%string, VError "EADDRINUSE") st
    = Threw (VError "removeListener failed") st'
    /\ ReadinessPromise.returned st' = Pending
    /\ ReadinessPromise.settle_calls st' = [].
Proof. eexists. vm_compute. repeat split. Qed.

Example removeListener_exception_inside_listen :
  ReadinessPromise.returned
    (ReadinessPromise.promisifyServerListen ReadinessPromise.faulty_server 8080
       (ReadinessPromise.fresh_emitter [] [("error"%string, VError "EADDRINUSE")]))
  = Rejected (VError "removeListener failed").
Proof. vm_compute. reflexivity. Qed.

End CleanupErrorFacts.

Section SequentialRunnerFacts.
Import Js SequentialRunner.

Lemma sequentializePromises_loop (promises : list item) :
  sequentializePromises promises = loop 0 promises [] [].
Proof. destruct promises; reflexivity. Qed.

Lemma obtain_result (i j : nat) (it : item) : snd (obtain i it) = snd (obtain j it).
Proof. destruct it; reflexivity. Qed.

Lemma obtain_actions (i : nat) (it : item) (a : action) :
  In a (fst (obtain i it)) -> a = Invoke i.
Proof. destruct it; cbn; [contradiction | intros [<-|[]]; reflexivity]. Qed.

(** Through a prefix of fulfilled promises the loop collects their values
    and calls only functions of that prefix. *)
Lemma loop_fulfilled (pre : list item) (values : list value) :
  Forall2 fulfils pre values ->
  forall i rest results tr,
  exists tr',
    loop i (pre ++ rest) results tr
    = loop (i + List.length pre) rest (results ++ values) (tr ++ tr')
    /\ (forall j, In (Invoke j) tr' -> (i <= j < i + List.length pre)%nat).
Proof.
  induction 1 as [|it v pre values Hit _ IH]; intros i rest results tr.
  - exists []. rewrite !app_nil_r, Nat.add_0_r. split; [reflexivity | contradiction].
  - cbn [app loop List.length]. unfold fulfils in Hit.
    rewrite (obtain_result 0 i) in Hit.
    pose proof (obtain_actions i it) as Hacts.
    destruct (obtain i it) as [acts r]. cbn [fst snd] in *. subst r.
    destruct (IH (S i) rest (results ++ [v]) (tr ++ acts ++ [Await i; Resume i]))
      as (tr' & -> & Hinv).
    exists ((acts ++ [Await i; Resume i]) ++ tr').
    split.
    + f_equal; [lia | now rewrite <- app_assoc | now rewrite !app_assoc].
    + intros j Hj. apply in_app_or in Hj as [Hj | Hj].
      * apply in_app_or in Hj as [Hj | Hj].
        -- apply Hacts in Hj. injection Hj as ->. lia.
        -- destruct Hj as [Hj | [Hj | []]]; discriminate.
      * apply Hinv in Hj. lia.
Qed.

Lemma snoc_split {A : Type} (l l1 l2 : list A) (a b : A) :
  l ++ [a] = l1 ++ b :: l2 ->
  (l2 = [] /\ l = l1 /\ a = b) \/ (exists l2', l2 = l2' ++ [a] /\ l = l1 ++ b :: l2').
Proof.
  induction l2 as [|x l2 _] using rev_ind; intros Heq.
  - left. apply app_inj_tail in Heq as [-> ->]. auto.
  - right. exists l2.
    change (l1 ++ b :: l2 ++ [x]) with (l1 ++ (b :: l2) ++ [x]) in Heq.
    rewrite app_assoc in Heq. apply app_inj_tail in Heq as [-> ->]. auto.
Qed.

Lemma in_sequence_snoc (tr : list action) (a : action) :
  in_sequence tr -> (forall j, a = Invoke (S j) -> In (Resume j) tr) ->
  in_sequence (tr ++ [a]).
Proof.
  intros Htr Ha l1 j l2 Heq.
  apply snoc_split in Heq as [(_ & -> & ->) | (l2' & _ & ->)].
  - now apply Ha.
  - now apply (Htr l1 j l2').
Qed.

Lemma in_sequence_obtain (tr : list action) (i : nat) (it : item) :
  in_sequence tr -> (forall j, i = S j -> In (Resume j) tr) ->
  in_sequence (tr ++ fst (obtain i it)).
Proof.
  intros Htr Hi. destruct it; cbn [obtain fst].
  - now rewrite app_nil_r.
  - apply in_sequence_snoc; [assumption|]. intros j [= ->]. now apply Hi.
Qed.

Lemma loop_in_sequence (promises : list item) :
  forall i results tr,
  in_sequence tr -> (forall j, i = S j -> In (Resume j) tr) ->
  in_sequence (trace (loop i promises results tr)).
Proof.
  induction promises as [|it promises IH]; intros i results tr Htr Hi; [exact Htr|].
  cbn [loop]. pose proof (in_sequence_obtain tr i it Htr Hi) as Hacts.
  destruct (obtain i it) as [acts r]. cbn [fst] in Hacts.
  assert (Hawait : in_sequence ((tr ++ acts) ++ [Await i])).
  { apply in_sequence_snoc; [assumption | discriminate]. }
  assert (Hresume : in_sequence (((tr ++ acts) ++ [Await i]) ++ [Resume i])).
  { apply in_sequence_snoc; [assumption | discriminate]. }
  rewrite <- !app_assoc in Hawait. rewrite <- !app_assoc in Hresume. cbn [app] in Hresume.
  destruct r as [[v | e |] | e]; cbn [trace]; try assumption.
  apply IH; [assumption|].
  intros j [= <-]. rewrite !in_app_iff. right. right. cbn. auto.
Qed.

(** C3: the empty input resolves to the empty array without a suspension;
    when every element is fulfilled the run resolves to the values in input
    order; when the elements before some position are fulfilled and the one
    at the position is rejected, the run is rejected with that very error
    (the values collected so far are not part of the outcome) and no
    function after the position is called; and in every run a function is
    called only after the run has resumed from the promise before it. *)
Theorem sequentializePromises_spec :
  sequentializePromises [] = {| settles := Resolved []; trace := [] |}
  /\ (forall promises values,
        Forall2 fulfils promises values ->
        settles (sequentializePromises promises) = Resolved values)
  /\ (forall pre values x e post,
        Forall2 fulfils pre values -> rejects x e ->
        settles (sequentializePromises (pre ++ x :: post)) = RejectedWith e
        /\ (forall j, In (Invoke j) (trace (sequentializePromises (pre ++ x :: post))) ->
              (j <= List.length pre)%nat))
  /\ (forall promises, in_sequence (trace (sequentializePromises promises))).
Proof.
  split_and!.
  - reflexivity.
  - intros promises values Hall. rewrite sequentializePromises_loop.
    destruct (loop_fulfilled promises values Hall 0 [] [] []) as (tr' & Heq & _).
    rewrite app_nil_r in Heq. rewrite Heq. reflexivity.
  - intros pre values x e post Hall Hx. rewrite sequentializePromises_loop.
    destruct (loop_fulfilled pre values Hall 0 (x :: post) [] []) as (tr' & -> & Hinv).
    cbn [loop Nat.add app]. unfold rejects in Hx.
    rewrite (obtain_result 0 (List.length pre)) in Hx.
    pose proof (obtain_actions (List.length pre) x) as Hacts.
    destruct (obtain (List.length pre) x) as [acts r]. cbn [fst snd] in *. subst r.
    cbn [settles trace]. split; [reflexivity|].
    intros j Hj. rewrite !in_app_iff in Hj. destruct Hj as [Hj | [Hj | Hj]].
    + apply Hinv in Hj. lia.
    + apply Hacts in Hj. injection Hj as ->. lia.
    + destruct Hj as [Hj | [Hj | []]]; discriminate.
  - intros promises. rewrite sequentializePromises_loop.
    apply loop_in_sequence; [| discriminate].
    intros l1 j l2 Heq. destruct l1; discriminate.
Qed.

Lemma sequentializePromises_spec_witness :
  let pre := [AFunction (Returns (Fulfills (VNumber 1)))] in
  let x := AFunction (Returns (Rejects (VError "second failed"))) in
  let post := [AFunction (Returns (Fulfills (VNumber 3)))] in
  Forall2 fulfils pre [VNumber 1] /\ rejects x (VError "second failed")
  /\ settles (sequentializePromises (pre ++ x :: post)) = RejectedWith (VError "second failed").
Proof.
  intros pre x post.
  assert (Hpre : Forall2 fulfils pre [VNumber 1]).
  { constructor; [reflexivity | constructor]. }
  refine (conj Hpre (conj eq_refl _)).
  exact (proj1 (proj1 (proj2 (proj2 sequentializePromises_spec))
                  pre [VNumber 1] x (VError "second failed") post Hpre eq_refl)).
Defined.

Example sequentializePromises_second_rejects :
  sequentializePromises
    [AFunction (Returns (Fulfills (VNumber 1)));
     AFunction (Returns (Rejects (VError "second failed")));
     AFunction (Returns (Fulfills (VNumber 3)))]
  = {| settles := RejectedWith (VError "second failed");
       trace := [Invoke 0; Await 0; Resume 0; Invoke 1; Await 1; Resume 1] |}.
Proof. reflexivity. Qed.

Example sequentializePromises_in_order :
  sequentializePromises
    [APromise (Fulfills (VNumber 1)); AFunction (Returns (Fulfills (VNumber 2)))]
  = {| settles := Resolved [VNumber 1; VNumber 2];
       trace := [Await 0; Resume 0; Invoke 1; Await 1; Resume 1] |}.
Proof. reflexivity. Qed.

End SequentialRunnerFacts.

Section ArrayUtilFacts.
Import ArrayUtil.
Context {A : Type} (strict_eq : A -> A -> bool).

Lemma indexOf_from_absent (array : list A) (element : A) :
  Forall (fun y => strict_eq y element = false) array ->
  forall i, indexOf_from strict_eq i array element = -1.
Proof.
  induction 1 as [|y rest Hy _ IH]; intros i; [reflexivity|].
  cbn [indexOf_from]. rewrite Hy. apply IH.
Qed.

Lemma indexOf_from_first (before after : list A) (found element : A) :
  Forall (fun y => strict_eq y element = false) before ->
  strict_eq found element = true ->
  forall i, indexOf_from strict_eq i (before ++ found :: after) element
            = i + Z.of_nat (List.length before).
Proof.
  intros Hbefore Hfound. induction Hbefore as [|y rest Hy _ IH]; intros i.
  - cbn. rewrite Hfound. lia.
  - cbn [app indexOf_from List.length]. rewrite Hy, IH. lia.
Qed.

(** X1: When some element of the array is strictly equal to the argument,
    [removeFromArray] returns [true] and takes out the first such element
    and nothing else: the elements before and after it stay, in order. *)
Theorem removeFromArray_first_occurrence (before after : list A) (found element : A) :
  Forall (fun y => strict_eq y element = false) before ->
  strict_eq found element = true ->
  removeFromArray strict_eq (before ++ found :: after) element = (true, before ++ after).
Proof.
  intros Hbefore Hfound. unfold removeFromArray, indexOf.
  rewrite (indexOf_from_first before after found element Hbefore Hfound).
  destruct (Z.geb_spec (0 + Z.of_nat (List.length before)) 0) as [_|Hlt]; [|lia].
  f_equal. unfold splice_one.
  replace (Z.to_nat (0 + Z.of_nat (List.length before))) with (List.length before) by lia.
  rewrite take_app_length.
  change (S (List.length before)) with (1 + List.length before)%nat.
  rewrite Nat.add_comm, <- drop_drop, drop_app_length. reflexivity.
Qed.

(** X2: When no element of the array is strictly equal to the argument (always
    so for [NaN]), [removeFromArray] returns [false] and leaves the array as
    it is. *)
Theorem removeFromArray_absent (array : list A) (element : A) :
  Forall (fun y => strict_eq y element = false) array ->
  removeFromArray strict_eq array element = (false, array).
Proof.
  intros Habsent. unfold removeFromArray, indexOf.
  now rewrite (indexOf_from_absent array element Habsent).
Qed.

End ArrayUtilFacts.

Lemma removeFromArray_first_occurrence_witness :
  ArrayUtil.removeFromArray Nat.eqb ([1; 2] ++ 3 :: [4; 3])%nat 3%nat
  = (true, [1; 2] ++ [4; 3])%nat.
Proof.
  apply (removeFromArray_first_occurrence Nat.eqb [1; 2]%nat [4; 3]%nat 3%nat 3%nat).
  - repeat constructor.
  - reflexivity.
Defined.

Lemma removeFromArray_absent_witness :
  ArrayUtil.removeFromArray Nat.eqb [1; 2; 4]%nat 3%nat = (false, [1; 2; 4]%nat).
Proof.
  apply (removeFromArray_absent Nat.eqb [1; 2; 4]%nat 3%nat). repeat constructor.
Defined.

Section LeftPadFacts.
Import LeftPad.

Lemma concat_repeat_comm {A : Type} (p : list A) (n : nat) :
  concat (repeat p n) ++ p = p ++ concat (repeat p n).
Proof.
  induction n as [|n IH]; cbn [repeat concat]; [now rewrite app_nil_r|].
  now rewrite <- app_assoc, IH.
Qed.

Lemma pad_loop_spec (ch : pad) (text : JsString.t) (len : Z) (n : nat) :
  pad_text ch = Some text ->
  forall fuel i str, Z.to_nat (len - 1 - i) = n -> (n < fuel)%nat ->
  pad_loop fuel i len ch str = Some (concat (repeat text n) ++ str).
Proof.
  intros Htext. induction n as [|n IH]; intros fuel i str Hn Hfuel;
    (destruct fuel as [|fuel]; [lia|]); cbn [pad_loop].
  - destruct (Z.ltb_spec (i + 1) len); [lia | reflexivity].
  - destruct (Z.ltb_spec (i + 1) len); [|lia].
    rewrite Htext, IH by lia. cbn [repeat concat]. f_equal.
    rewrite (app_assoc _ text str).
    f_equal. apply (concat_repeat_comm text n).
Qed.

(** Without an iteration the pad is never turned into text. *)
Lemma pad_loop_none (ch : pad) (len : Z) (fuel : nat) (str : JsString.t) :
  len <= 0 -> pad_loop fuel (-1) len ch str = Some str.
Proof.
  intros Hlen. destruct fuel as [|fuel]; [reflexivity|]. cbn [pad_loop].
  destruct (Z.ltb_spec (-1 + 1) len); [lia | reflexivity].
Qed.

Lemma leftpad_unfold (str : JsString.t) (len : Z) (ch : pad) (text : JsString.t) :
  effective_pad ch = Some text ->
  leftpad str len ch
  = Some (concat (repeat text (Z.to_nat (len - JsString.jslength str))) ++ str).
Proof.
  intros Heff. unfold leftpad.
  set (ch1 := match ch with PadOmitted => PadString (JsString.lit " ") | _ => ch end).
  set (ch2 := if falsy ch1 && is_not_zero ch1 then PadString (JsString.lit " ") else ch1).
  assert (Hpad : pad_text ch2 = effective_pad ch).
  { subst ch2 ch1. destruct ch as [[|c s] | n | |]; try reflexivity.
    cbn. destruct (n =? 0); reflexivity. }
  rewrite Heff in Hpad.
  apply (pad_loop_spec ch2 text _ (Z.to_nat (len - JsString.jslength str)) Hpad); lia.
Qed.

(** X3: [leftpad] never cuts the string: when [len] is not above the length
    of the string, the string comes back as it is, whatever the pad.
    Otherwise the pad text is put in front of the string once for each
    character that is missing up to [len].  The pad text is [ch] as a
    string, a blank when [ch] is left out, the empty string or [NaN], and
    the decimal notation of [ch] when it is a safe integer ("0" for zero). *)
Theorem leftpad_closed_form (str : JsString.t) (len : Z) (ch : pad) :
  (len <= JsString.jslength str -> leftpad str len ch = Some str)
  /\ (forall text, effective_pad ch = Some text ->
        leftpad str len ch
        = Some (concat (repeat text (Z.to_nat (len - JsString.jslength str))) ++ str))
  /\ (effective_pad PadOmitted = Some (JsString.lit " ")
      /\ effective_pad (PadString []) = Some (JsString.lit " ")
      /\ effective_pad PadNaN = Some (JsString.lit " ")
      /\ effective_pad (PadNumber 0) = Some (JsString.lit "0"))
  /\ (forall n, - MAX_SAFE_INTEGER <= n <= MAX_SAFE_INTEGER ->
        effective_pad (PadNumber n)
        = Some (JsString.lit (NilZero.string_of_int (Z.to_int n)))).
Proof.
  split_and!; try reflexivity.
  - intros Hle. unfold leftpad. apply pad_loop_none. lia.
  - apply leftpad_unfold.
  - intros n Hn. cbn [effective_pad]. unfold number_text.
    destruct (Z.leb_spec (Z.abs n) MAX_SAFE_INTEGER); [reflexivity | lia].
Qed.

Lemma leftpad_closed_form_witness :
  3 <= JsString.jslength (JsString.lit "hello")
  /\ leftpad (JsString.lit "hello") 3 (PadNumber (10 ^ 21)) = Some (JsString.lit "hello")
  /\ effective_pad (PadNumber 7) = Some (JsString.lit "7")
  /\ leftpad (JsString.lit "42") 5 (PadNumber 7) = Some (JsString.lit "77742").
Proof.
  assert (H : 3 <= JsString.jslength (JsString.lit "hello")) by (vm_compute; discriminate).
  split; [exact H|].
  split; [exact (proj1 (leftpad_closed_form (JsString.lit "hello") 3 (PadNumber (10 ^ 21))) H)|].
  split; [reflexivity|].
  exact (proj1 (proj2 (leftpad_closed_form (JsString.lit "42") 5 (PadNumber 7)))
           (JsString.lit "7") eq_refl).
Defined.

Lemma length_concat_repeat {A : Type} (p : list A) (n : nat) :
  List.length (concat (repeat p n)) = (n * List.length p)%nat.
Proof.
  induction n as [|n IH]; [reflexivity|].
  cbn [repeat concat]. rewrite length_app, IH. lia.
Qed.

(** X4: the length of the result, for a pad with the text [text]: the string
    and one pad text per missing character.  With a pad of one character
    that is the larger of [len] and the length of the string; a longer pad
    text overshoots [len]. *)
Theorem leftpad_length (str : JsString.t) (len : Z) (ch : pad) (text : JsString.t) :
  effective_pad ch = Some text ->
  exists result,
    leftpad str len ch = Some result
    /\ JsString.jslength result
       = JsString.jslength str
         + Z.max 0 (len - JsString.jslength str) * JsString.jslength text
    /\ (JsString.jslength text = 1 ->
        JsString.jslength result = Z.max len (JsString.jslength str)).
Proof.
  intros Heff. eexists. split; [apply (leftpad_unfold str len ch text Heff)|].
  assert (Hlen : JsString.jslength
                   (concat (repeat text (Z.to_nat (len - JsString.jslength str))) ++ str)
    = JsString.jslength str
      + Z.max 0 (len - JsString.jslength str) * JsString.jslength text).
  { unfold JsString.jslength. unfold JsString.t in *.
    rewrite length_app, length_concat_repeat. lia. }
  split; [exact Hlen|]. intros Hone. rewrite Hlen, Hone. lia.
Qed.

Lemma leftpad_length_witness :
  effective_pad (PadNumber 0) = Some (JsString.lit "0")
  /\ exists result,
       leftpad (JsString.lit "42") 5 (PadNumber 0) = Some result
       /\ JsString.jslength result = Z.max 5 (JsString.jslength (JsString.lit "42")).
Proof.
  split; [reflexivity|].
  destruct (leftpad_length (JsString.lit "42") 5 (PadNumber 0) (JsString.lit "0") eq_refl)
    as (result & Hres & _ & Hone).
  exists result. split; [exact Hres | exact (Hone eq_refl)].
Defined.

Example leftpad_zero :
  leftpad (JsString.lit "42") 5 (PadNumber 0) = Some (JsString.lit "00042").
Proof. vm_compute. reflexivity. Qed.

Example leftpad_two_characters :
  leftpad (JsString.lit "x") 3 (PadString (JsString.lit "ab")) = Some (JsString.lit "ababx").
Proof. vm_compute. reflexivity. Qed.

Example leftpad_large_number_not_modelled :
  leftpad (JsString.lit "a") 2 (PadNumber (10 ^ 21)) = None.
Proof. vm_compute. reflexivity. Qed.

End LeftPadFacts.

Section EscapeRegExpFacts.
Import Regex EscapeRegExp.

Lemma escape_regexp_literal : rx_of "[.*+?^${}()|[\]\\]" "g" = Some ESCAPE_REGEXP.
Proof. reflexivity. Qed.

Lemma escape_match_at (pos : nat) (s : list ascii) :
  match_at ESCAPE_REGEXP pos s =
  match s with
  | c :: t => if is_syntax_char c then Some (S pos, t) else None
  | [] => None
  end.
Proof.
  destruct s as [|c t]; [reflexivity|].
  unfold match_at, ESCAPE_REGEXP. cbn [source ignoreCase m char_matcher].
  replace (xorb false _) with (is_syntax_char c); [reflexivity|].
  destruct c as [[] [] [] [] [] [] [] []]; reflexivity.
Qed.

Lemma escape_replace_with (s : list ascii) :
  forall fuel before pos, (List.length s < fuel)%nat ->
  replace_with fuel ESCAPE_REGEXP (template (JsString.lit "\$&")) before pos s
  = flat_map escape_char s.
Proof.
  induction s as [|c t IH]; intros fuel before pos Hfuel;
    (destruct fuel as [|fuel]; [cbn in Hfuel; lia|]);
    cbn [replace_with]; rewrite escape_match_at; [reflexivity|].
  cbn [List.length] in Hfuel. cbn [flat_map]. unfold escape_char at 1.
  destruct (is_syntax_char c).
  - assert ((S pos =? pos)%nat = false) as -> by (apply Nat.eqb_neq; lia).
    replace (S pos - pos)%nat with 1%nat by lia.
    cbn [firstn JsString.lit list_ascii_of_string template substitute flat_map app].
    do 2 f_equal. apply IH. lia.
  - cbn [app]. f_equal. apply IH. lia.
Qed.

Lemma escape_char_special (c : ascii) :
  is_syntax_char c = true -> escape_char c = ["\"%char; c].
Proof. unfold escape_char. now intros ->. Qed.

Lemma escape_char_plain (c : ascii) : is_syntax_char c = false -> escape_char c = [c].
Proof. unfold escape_char. now intros ->. Qed.

Lemma escapeRegExp_unfold (str : JsString.t) :
  escapeRegExp str = flat_map escape_char str.
Proof. unfold escapeRegExp. apply escape_replace_with. lia. Qed.

(** X5: [escapeRegExp] copies the string and puts a backslash in front of each
    of the fourteen characters [. * + ? ^ $ { } ( ) | [ ] \]; every other
    character is kept as it is. *)
Theorem escapeRegExp_prefixes_specials (str : JsString.t) :
  escapeRegExp str = flat_map escape_char str
  /\ (forallb (fun c => negb (is_syntax_char c)) str = true -> escapeRegExp str = str)
  /\ JsString.jslength (escapeRegExp str)
     = JsString.jslength str
       + Z.of_nat (List.length (List.filter is_syntax_char str)).
Proof.
  rewrite escapeRegExp_unfold. split_and!; [reflexivity | |].
  - induction str as [|c t IH]; [reflexivity|]. cbn [forallb flat_map].
    intros H. apply andb_prop in H as [Hc Ht]. apply negb_true_iff in Hc.
    now rewrite (escape_char_plain c Hc), IH.
  - unfold JsString.jslength. induction str as [|c t IH]; [reflexivity|].
    cbn [flat_map List.filter]. rewrite length_app.
    destruct (is_syntax_char c) eqn:E;
      [rewrite (escape_char_special c E) | rewrite (escape_char_plain c E)];
      cbn [List.length]; lia.
Qed.

Lemma escapeRegExp_prefixes_specials_witness :
  forallb (fun c => negb (is_syntax_char c)) (JsString.lit "plain-text_1") = true
  /\ escapeRegExp (JsString.lit "plain-text_1") = JsString.lit "plain-text_1".
Proof.
  split; [reflexivity|].
  exact (proj1 (proj2 (escapeRegExp_prefixes_specials (JsString.lit "plain-text_1"))) eq_refl).
Defined.

Example escapeRegExp_example :
  escapeRegExp (JsString.lit "myfile.*") = JsString.lit "myfile\.\*".
Proof. vm_compute. reflexivity. Qed.

Lemma parse_term_plain (c : ascii) (f : nat) (t : list ascii) :
  is_syntax_char c = false ->
  parse_term (S (S f)) (c :: t) = parse_quantifier (Char c) t.
Proof. destruct c as [[] [] [] [] [] [] [] []]; intros H; try discriminate H; reflexivity. Qed.

Lemma parse_term_escaped (c : ascii) (f : nat) (t : list ascii) :
  is_syntax_char c = true ->
  parse_term (S (S f)) ("\"%char :: c :: t) = parse_quantifier (Char c) t.
Proof. destruct c as [[] [] [] [] [] [] [] []]; intros H; try discriminate H; reflexivity. Qed.

Lemma parse_alternative_plain (c : ascii) (f : nat) (rest : list ascii) :
  is_syntax_char c = false ->
  parse_alternative (S f) (c :: rest)
  = match parse_term f (c :: rest) with
    | Some (tm, rest0) =>
        match parse_alternative f rest0 with
        | Some (Empty, rest') => Some (tm, rest')
        | Some (r, rest') => Some (Seq tm r, rest')
        | None => None
        end
    | None => None
    end.
Proof. destruct c as [[] [] [] [] [] [] [] []]; intros E; try discriminate E; reflexivity. Qed.

(** The escaped text followed by [$] never starts with a quantifier. *)
Lemma parse_quantifier_escaped (a : re) (s : list ascii) :
  parse_quantifier a (flat_map escape_char s ++ ["$"%char])
  = Some (a, flat_map escape_char s ++ ["$"%char]).
Proof.
  destruct s as [|c t]; [reflexivity|].
  cbn [flat_map].
  destruct (is_syntax_char c) eqn:E.
  - rewrite (escape_char_special c E). reflexivity.
  - rewrite (escape_char_plain c E).
    destruct c as [[] [] [] [] [] [] [] []]; try discriminate E; reflexivity.
Qed.

Lemma parse_alternative_escaped (s : list ascii) :
  forall fuel, (List.length s + 3 <= fuel)%nat ->
  parse_alternative fuel (flat_map escape_char s ++ ["$"%char])
  = Some (literal_then s Eol, []).
Proof.
  induction s as [|c t IH]; intros fuel Hfuel.
  - do 3 (destruct fuel as [|fuel]; [cbn in Hfuel; lia|]). reflexivity.
  - cbn [List.length] in Hfuel.
    do 3 (destruct fuel as [|fuel]; [lia|]).
    assert (Hrest : parse_alternative (S (S fuel))
                      (flat_map escape_char t ++ ["$"%char])
                    = Some (literal_then t Eol, [])) by (apply IH; lia).
    cbn [flat_map literal_then].
    destruct (is_syntax_char c) eqn:E.
    + rewrite (escape_char_special c E). cbn [app].
      assert (Hhead : forall rest,
                parse_alternative (S (S (S fuel))) ("\"%char :: rest)
                = match parse_term (S (S fuel)) ("\"%char :: rest) with
                  | Some (tm, rest0) =>
                      match parse_alternative (S (S fuel)) rest0 with
                      | Some (Empty, rest') => Some (tm, rest')
                      | Some (r, rest') => Some (Seq tm r, rest')
                      | None => None
                      end
                  | None => None
                  end) by reflexivity.
      rewrite Hhead, (parse_term_escaped c fuel _ E), parse_quantifier_escaped, Hrest.
      now destruct t.
    + rewrite (escape_char_plain c E). cbn [app].
      rewrite (parse_alternative_plain c _ _ E).
      rewrite (parse_term_plain c fuel _ E), parse_quantifier_escaped, Hrest.
      now destruct t.
Qed.

Lemma parse_disjunction_step (f : nat) (s : list ascii) :
  parse_disjunction (S f) s
  = match parse_alternative f s with
    | Some (r, "|"%char :: t) =>
        match parse_disjunction f t with
        | Some (r', rest) => Some (Alt r r', rest)
        | None => None
        end
    | other => other
    end.
Proof. reflexivity. Qed.

Lemma parse_alternative_bol (f : nat) (s : list ascii) :
  parse_alternative (S (S f)) ("^"%char :: s)
  = match parse_alternative (S f) s with
    | Some (Empty, rest') => Some (Bol, rest')
    | Some (r, rest') => Some (Seq Bol r, rest')
    | None => None
    end.
Proof. reflexivity. Qed.

Lemma parse_anchored_escaped (s : list ascii) :
  parse (JsString.lit "^" ++ escapeRegExp s ++ JsString.lit "$")
  = Some (Seq Bol (literal_then s Eol)).
Proof.
  rewrite escapeRegExp_unfold. unfold parse.
  cbn [JsString.lit list_ascii_of_string app List.length].
  set (pattern := flat_map escape_char s ++ ["$"%char]).
  assert (Hlen : (List.length s + 1 <= List.length pattern)%nat).
  { subst pattern. rewrite length_app. cbn [List.length].
    assert (List.length s <= List.length (flat_map escape_char s))%nat; [|lia].
    clear. induction s as [|c t IH]; [reflexivity|].
    cbn [flat_map]. rewrite length_app.
    destruct (is_syntax_char c) eqn:E;
      [rewrite (escape_char_special c E) | rewrite (escape_char_plain c E)];
      cbn [List.length]; lia. }
  remember (4 * S (S (List.length pattern)))%nat as fuel eqn:Hfuel.
  do 3 (destruct fuel as [|fuel]; [lia|]).
  rewrite parse_disjunction_step, parse_alternative_bol.
  subst pattern. rewrite parse_alternative_escaped by lia.
  now destruct s.
Qed.

Lemma m_literal {R : Type} (s : list ascii) :
  forall (pos : nat) (t : list ascii) (k : nat -> list ascii -> option R),
  m false (literal_then s Eol) pos t k
  = if bool_decide (t = s) then k (pos + List.length s)%nat [] else None.
Proof.
  induction s as [|c s IH]; intros pos t k; cbn [literal_then m List.length].
  - destruct t; [now rewrite Nat.add_0_r | reflexivity].
  - destruct t as [|d t]; cbn [char_matcher]; [reflexivity|].
    unfold canon_eq. destruct (Ascii.eqb_spec c d) as [->|Hne].
    + rewrite IH. replace (S pos + List.length s)%nat with (pos + S (List.length s))%nat by lia.
      destruct (decide (t = s)) as [->|Hts].
      * now rewrite !bool_decide_eq_true_2.
      * rewrite !bool_decide_eq_false_2; [reflexivity | congruence | assumption].
    + rewrite bool_decide_eq_false_2; [reflexivity | congruence].
Qed.

Lemma exec_from_anchored (rx : RegExp) (r : re) (t : list ascii) :
  source rx = Seq Bol r ->
  forall pos, exec_from rx (S pos) t = None.
Proof.
  intros Hsrc. induction t as [|c t IH]; intros pos;
    cbn [exec_from]; unfold match_at; rewrite Hsrc; cbn [m Nat.eqb]; [reflexivity | apply IH].
Qed.

(** X6: A text that has gone through [escapeRegExp] is a pattern for that text
    and nothing else: between [^] and [$] it compiles, and the compiled
    expression matches a string exactly when the string is the text. *)
Theorem escapeRegExp_matches_literally (str : JsString.t) :
  exists rx,
    RegExp_new (JsString.lit "^" ++ escapeRegExp str ++ JsString.lit "$") [] = Some rx
    /\ forall t, matches rx t = true <-> t = str.
Proof.
  eexists. split.
  - unfold RegExp_new. cbn [forallb]. rewrite parse_anchored_escaped. reflexivity.
  - intros t. unfold matches. cbn [existsb].
    destruct t as [|c t]; cbn [exec_from]; unfold match_at at 1;
      cbn [source ignoreCase m Nat.eqb]; rewrite m_literal.
    + destruct (decide ([] = str)) as [<-|Hne].
      * now rewrite bool_decide_eq_true_2.
      * rewrite bool_decide_eq_false_2 by assumption. split; [discriminate | contradiction].
    + destruct (decide (c :: t = str)) as [<-|Hne].
      * now rewrite bool_decide_eq_true_2.
      * rewrite bool_decide_eq_false_2 by assumption.
        rewrite (exec_from_anchored _ (literal_then str Eol)) by reflexivity.
        split; [discriminate | contradiction].
Qed.

Lemma escapeRegExp_matches_literally_witness :
  exists rx,
    RegExp_new (JsString.lit "^" ++ escapeRegExp (JsString.lit "a.c") ++ JsString.lit "$") []
    = Some rx
    /\ matches rx (JsString.lit "a.c") = true.
Proof.
  destruct (escapeRegExp_matches_literally (JsString.lit "a.c")) as (rx & Hrx & Hm).
  exists rx. split; [exact Hrx | now apply Hm].
Defined.

Example escapeRegExp_without_escaping_is_a_wildcard :
  test "^a.c$" "" "abc" = Some true
  /\ option_map (fun rx => matches rx (JsString.lit "abc"))
       (RegExp_new (JsString.lit "^" ++ escapeRegExp (JsString.lit "a.c") ++ JsString.lit "$") [])
     = Some false.
Proof. split; vm_compute; reflexivity. Qed.

End EscapeRegExpFacts.

Section UsernameRulesFacts.
Import Regex Username UsernameRules.

Lemma forbidden_regexp_shape :
  FORBIDDEN_REGEXP
  = Some {| source := Seq Bol (Seq (Group forbidden_body) Eol);
            ignoreCase := true;
            global := false |}.
Proof. vm_compute. reflexivity. Qed.

Lemma rules_listed :
  In rule_start (alternatives forbidden_body)
  /\ In rule_end (alternatives forbidden_body)
  /\ In rule_separators (alternatives forbidden_body).
Proof.
  split_and!.
  - apply (nth_error_In _ 187). vm_compute. reflexivity.
  - apply (nth_error_In _ 188). vm_compute. reflexivity.
  - apply (nth_error_In _ 189). vm_compute. reflexivity.
Qed.

(** An alternation accepts what one of its members accepts. *)
Lemma alternative_accepts {R : Type} (ic : bool) (member : re) :
  forall whole : re, In member (alternatives whole) ->
  forall (pos : nat) (s : list ascii) (k : nat -> list ascii -> option R),
  is_Some (m ic member pos s k) -> is_Some (m ic whole pos s k).
Proof.
  induction whole as [| | | | | | | a IHa b IHb | |]; cbn [alternatives];
    try (intros [<- | []] pos s k H; exact H).
  intros Hin pos s k H. cbn [m]. apply in_app_or in Hin as [Hin | Hin].
  - destruct (IHa Hin pos s k H) as [z ->]. eauto.
  - destruct (m ic a pos s k); [eauto | exact (IHb Hin pos s k H)].
Qed.

(** [.*] can take any prefix that stays on one line. *)
Lemma any_text_accepts {R : Type} (ic : bool) (s1 : list ascii) :
  one_line s1 ->
  forall (fuel pos : nat) (s2 : list ascii) (k : nat -> list ascii -> option R),
  (List.length s1 < fuel)%nat ->
  is_Some (k (pos + List.length s1)%nat s2) ->
  is_Some (repeat_matcher fuel (m ic Dot) 0 None pos (s1 ++ s2) k).
Proof.
  unfold one_line. induction s1 as [|c s1 IH]; intros Hline fuel pos s2 k Hfuel Hk;
    (destruct fuel as [|fuel]; [cbn in Hfuel; lia|]); cbn [repeat_matcher Nat.eqb andb app].
  - cbn [List.length] in Hk. rewrite Nat.add_0_r in Hk.
    destruct (m ic Dot pos s2 _); [eauto | exact Hk].
  - cbn [forallb] in Hline. apply andb_prop in Hline as [Hc Hline].
    cbn [List.length] in Hfuel, Hk.
    cbn [m char_matcher]. rewrite Hc.
    assert ((S pos =? pos)%nat = false) as -> by (apply Nat.eqb_neq; lia).
    cbn [Nat.pred option_map].
    assert (Hrest : is_Some (repeat_matcher fuel (m ic Dot) 0 None (S pos) (s1 ++ s2) k)).
    { apply IH; [exact Hline | lia |].
      now replace (S pos + List.length s1)%nat with (pos + S (List.length s1))%nat by lia. }
    destruct Hrest as [z Hz]. cbn [m] in Hz. rewrite Hz. eauto.
Qed.

Lemma any_text_matcher {R : Type} (ic : bool) (s1 s2 : list ascii) (pos : nat)
    (k : nat -> list ascii -> option R) :
  one_line s1 ->
  is_Some (k (pos + List.length s1)%nat s2) ->
  is_Some (m ic any_text pos (s1 ++ s2) k).
Proof.
  intros Hline Hk. unfold any_text.
  change (m ic (Repeat 0 None Dot) pos (s1 ++ s2) k)
    with (repeat_matcher (0 + List.length (s1 ++ s2) + 2) (m ic Dot) 0 None pos (s1 ++ s2) k).
  apply (any_text_accepts ic s1 Hline); [rewrite length_app; lia | exact Hk].
Qed.

Lemma not_alnum_class (c : ascii) :
  xorb true (existsb (class_item_matches true c) [CRange "0" "9"; CRange "a" "z"])
  = negb (is_alnum c).
Proof. destruct c as [[] [] [] [] [] [] [] []]; reflexivity. Qed.

Lemma separator_class (c : ascii) :
  xorb false (existsb (class_item_matches true c) [CChar "_"; CChar "."; CChar "-"])
  = is_separator c.
Proof. destruct c as [[] [] [] [] [] [] [] []]; reflexivity. Qed.

(** What one member of the list accepts in full is a forbidden username. *)
Lemma forbidden_by_member (member : re) (username : JsString.t) :
  In member (alternatives forbidden_body) ->
  is_Some (m true member 0 username at_end) ->
  isForbiddenUsername username = Some true.
Proof.
  intros Hin Hacc. unfold isForbiddenUsername. rewrite forbidden_regexp_shape.
  cbn [option_map]. f_equal. unfold matches.
  pose proof (alternative_accepts true member forbidden_body Hin 0 username at_end Hacc)
    as [z Hz].
  assert (Hmatch : match_at {| source := Seq Bol (Seq (Group forbidden_body) Eol);
                               ignoreCase := true; global := false |} 0 username
                   = Some z).
  { unfold match_at. cbn [source ignoreCase]. exact Hz. }
  destruct username; cbn [exec_from]; rewrite Hmatch; now destruct z.
Qed.

Lemma at_end_accepts (pos : nat) : is_Some (at_end pos []).
Proof. unfold at_end. cbn. eauto. Qed.

(** X7: Every username on one line whose first character is not a letter or a
    digit (a dot, a dash, an underscore, a blank, ...) is forbidden. *)
Theorem forbidden_when_first_not_alnum (c : ascii) (rest : list ascii) :
  is_alnum c = false -> one_line rest ->
  isForbiddenUsername (c :: rest) = Some true.
Proof.
  intros Hc Hline. apply (forbidden_by_member rule_start); [apply rules_listed|].
  unfold rule_start, not_alnum. cbn [m char_matcher].
  rewrite not_alnum_class, Hc. cbn [negb].
  rewrite <- (app_nil_r rest). apply any_text_matcher; [exact Hline | apply at_end_accepts].
Qed.

Lemma forbidden_when_first_not_alnum_witness :
  is_alnum "." = false /\ one_line (JsString.lit "htaccess")
  /\ isForbiddenUsername ("."%char :: JsString.lit "htaccess") = Some true.
Proof.
  refine (conj eq_refl (conj eq_refl _)).
  exact (forbidden_when_first_not_alnum "." (JsString.lit "htaccess") eq_refl eq_refl).
Defined.

(** X8: Every username whose last character is not a letter or a digit, with
    everything before it on one line, is forbidden. *)
Theorem forbidden_when_last_not_alnum (front : list ascii) (c : ascii) :
  is_alnum c = false -> one_line front ->
  isForbiddenUsername (front ++ [c]) = Some true.
Proof.
  intros Hc Hline. apply (forbidden_by_member rule_end); [apply rules_listed|].
  unfold rule_end. cbn [m]. apply any_text_matcher; [exact Hline|].
  unfold not_alnum. cbn [m char_matcher].
  rewrite not_alnum_class, Hc. cbn [negb]. apply at_end_accepts.
Qed.

Lemma forbidden_when_last_not_alnum_witness :
  is_alnum "_" = false /\ one_line (JsString.lit "john")
  /\ isForbiddenUsername (JsString.lit "john" ++ ["_"%char]) = Some true.
Proof.
  refine (conj eq_refl (conj eq_refl _)).
  exact (forbidden_when_last_not_alnum (JsString.lit "john") "_" eq_refl eq_refl).
Defined.

(** X9: Every username on one line that has two characters of underscore, dot
    and dash next to each other, anywhere, is forbidden. *)
Theorem forbidden_when_separators_repeat (front back : list ascii) (a b : ascii) :
  is_separator a = true -> is_separator b = true ->
  one_line front -> one_line back ->
  isForbiddenUsername (front ++ a :: b :: back) = Some true.
Proof.
  intros Ha Hb Hfront Hback.
  apply (forbidden_by_member rule_separators); [apply rules_listed|].
  unfold rule_separators. cbn [m]. apply any_text_matcher; [exact Hfront|].
  cbn [m List.length Nat.add repeat_matcher Nat.eqb andb Nat.pred option_map].
  unfold separator. cbn [m char_matcher]. rewrite separator_class, Ha.
  cbn [m char_matcher]. rewrite separator_class, Hb.
  rewrite <- (app_nil_r back). apply any_text_matcher; [exact Hback | apply at_end_accepts].
Qed.

Lemma forbidden_when_separators_repeat_witness :
  is_separator "-" = true /\ is_separator "." = true
  /\ one_line (JsString.lit "my") /\ one_line (JsString.lit "name")
  /\ isForbiddenUsername (JsString.lit "my" ++ "-"%char :: "."%char :: JsString.lit "name")
     = Some true.
Proof.
  refine (conj eq_refl (conj eq_refl (conj eq_refl (conj eq_refl _)))).
  exact (forbidden_when_separators_repeat (JsString.lit "my") (JsString.lit "name")
           "-" "." eq_refl eq_refl eq_refl eq_refl).
Defined.

End UsernameRulesFacts.

Section IdentifierFacts.
Import DeterministicId.

Lemma preimages_table :
  map RandomIdBias.preimages RandomId.chars = repeat 5%nat 8 ++ repeat 4%nat 54.
Proof. vm_compute. reflexivity. Qed.

(** X10: The 256 values of a random octet do not spread evenly over the 62
    characters: each of the first eight characters of the alphabet
    ([a] to [h]) is the image of five octets, each of the other 54 of
    four, so the first eight come up more often. *)
Theorem cryptoRandomObjectId_modulo_bias (i : nat) (c : ascii) :
  nth_error RandomId.chars i = Some c ->
  RandomIdBias.preimages c = (if (i <? 8)%nat then 5 else 4)%nat.
Proof.
  intros Hc. apply (map_nth_error RandomIdBias.preimages) in Hc.
  rewrite preimages_table in Hc.
  destruct (Nat.ltb_spec i 8) as [Hlt|Hge].
  - rewrite nth_error_app1 in Hc by (rewrite repeat_length; exact Hlt).
    apply nth_error_In, repeat_spec in Hc. exact Hc.
  - rewrite nth_error_app2 in Hc by (rewrite repeat_length; exact Hge).
    apply nth_error_In, repeat_spec in Hc. exact Hc.
Qed.

Lemma cryptoRandomObjectId_modulo_bias_witness :
  nth_error RandomId.chars 61 = Some "9"%char /\ RandomIdBias.preimages "9" = 4%nat.
Proof.
  split; [reflexivity|].
  exact (cryptoRandomObjectId_modulo_bias 61 "9" eq_refl).
Defined.

Lemma deterministicUniqueId_value (key : list Z) (length : option Z) :
  deterministicUniqueId key length
  = Some (firstn (Z.to_nat (match length with Some n => n | None => 17 end))
            (map fill (Base64.encode (Sha256.sha256 (Utf8.encode key))))).
Proof.
  unfold deterministicUniqueId, digest, update, createHash.
  cbn [algorithm buffer app String.eqb Ascii.eqb Bool.eqb andb option_map].
  now rewrite filler_replace_all, substr_prefix.
Qed.

Lemma sextet_filled_alnum (n : Z) : RandomId.is_alnum (fill (Base64.sextet n)) = true.
Proof.
  unfold Base64.sextet.
  assert (Hall : forallb (fun c => RandomId.is_alnum (fill c)) ("="%char :: Base64.alphabet) = true)
    by (vm_compute; reflexivity).
  rewrite forallb_forall in Hall. apply Hall.
  destruct (nth_in_or_default (Z.to_nat n) Base64.alphabet "="%char) as [Hin | ->].
  - now right.
  - now left.
Qed.

Lemma base64_filled_alnum (bytes : list Z) :
  forallb RandomId.is_alnum (map fill (Base64.encode bytes)) = true.
Proof.
  induction bytes as [| a | a b | a b c t IH] using list_ind3;
    cbn [Base64.encode map forallb]; rewrite ?sextet_filled_alnum; try reflexivity.
  exact IH.
Qed.

(** X11: Whatever the key and the length, [deterministicUniqueId] returns letters
    and digits only: the three other characters of base64 have all become
    [x]. *)
Theorem deterministicUniqueId_alphanumeric (key : list Z) (length : option Z) :
  exists id, deterministicUniqueId key length = Some id
             /\ forallb RandomId.is_alnum id = true.
Proof.
  eexists. split; [apply deterministicUniqueId_value|].
  apply forallb_forall. intros c Hc.
  pose proof (base64_filled_alnum (Sha256.sha256 (Utf8.encode key))) as Hall.
  rewrite forallb_forall in Hall. apply Hall.
  rewrite <- (firstn_skipn (Z.to_nat (match length with Some n => n | None => 17 end))).
  apply in_or_app. now left.
Qed.

(** X12: A shorter identifier of a key is the beginning of a longer one of the
    same key. *)
Theorem deterministicUniqueId_prefix (key : list Z) (short long : Z) :
  short <= long ->
  exists id_short id_long,
    deterministicUniqueId key (Some short) = Some id_short
    /\ deterministicUniqueId key (Some long) = Some id_long
    /\ id_short = firstn (Z.to_nat short) id_long.
Proof.
  intros Hle. do 2 eexists. rewrite !deterministicUniqueId_value.
  split_and!; [reflexivity | reflexivity |].
  cbv beta iota. rewrite take_take. f_equal. lia.
Qed.

Lemma deterministicUniqueId_prefix_witness :
  5 <= 17 /\
  exists id_short id_long,
    deterministicUniqueId [97; 98; 99] (Some 5) = Some id_short
    /\ deterministicUniqueId [97; 98; 99] (Some 17) = Some id_long
    /\ id_short = firstn (Z.to_nat 5) id_long.
Proof.
  assert (H : 5 <= 17) by lia. split; [exact H|].
  exact (deterministicUniqueId_prefix [97; 98; 99] 5 17 H).
Defined.

(** X13: The digest has 32 bytes, so its base64 text ends in one padding
    character: an identifier of 44 characters or more always has [x] as
    its 44th and last character. *)
Theorem deterministicUniqueId_last_is_filler (key : list Z) (length : Z) :
  44 <= length ->
  exists id, deterministicUniqueId key (Some length) = Some id
             /\ nth_error id 43 = Some "x"%char
             /\ List.length id = 44%nat.
Proof.
  intros Hlen. eexists. split; [apply deterministicUniqueId_value|].
  cbv beta iota.
  rewrite firstn_all2 by (rewrite length_map, base64_digest_length; lia).
  split; [| now rewrite length_map, base64_digest_length].
  unfold Sha256.sha256, Sha256.digest_bytes, Sha256.be32. cbn [app].
  cbn [Base64.encode map nth_error]. reflexivity.
Qed.

Lemma deterministicUniqueId_last_is_filler_witness :
  44 <= 50 /\
  exists id, deterministicUniqueId [97; 98; 99] (Some 50) = Some id
             /\ nth_error id 43 = Some "x"%char
             /\ List.length id = 44%nat.
Proof.
  assert (H : 44 <= 50) by lia. split; [exact H|].
  exact (deterministicUniqueId_last_is_filler [97; 98; 99] 50 H).
Defined.

End IdentifierFacts.

Section RepeatingTaskRunsFacts.
Import Js RepeatingTask RepeatingTaskRuns.

Lemma invocations_run (es : list event) :
  forall st s, run st es = Some s -> invocations s = (invocations st + fired es)%nat.
Proof.
  induction es as [|e es IH]; intros st s Hrun.
  - injection Hrun as <-. cbn. lia.
  - cbn [run] in Hrun. destruct (step st e) as [st1|] eqn:Hstep; [|discriminate].
    rewrite (IH _ _ Hrun). destruct e as [|id|]; cbn [step fired] in *.
    + injection Hstep as <-. unfold callback. destruct (isRunning st); reflexivity.
    + destruct (fire id (host st)); [|discriminate]. injection Hstep as <-. cbn. lia.
    + injection Hstep as <-. reflexivity.
Qed.

(** X14: The work function is called once when the task is created and then
    once for each timer that fires, whatever else happens: continuation
    calls and cancellations never call it. *)
Theorem betterSetInterval_invocations
    (delayMillis : Z) (first_id : nat) (es : list event) (s : state) :
  run (betterSetInterval delayMillis first_id) es = Some s ->
  invocations s = S (fired es).
Proof. intros Hrun. now rewrite (invocations_run es _ _ Hrun). Qed.

Lemma betterSetInterval_invocations_witness :
  exists s,
    run (betterSetInterval 50 1) [Continuation; TimerFired 1; Continuation; Cancel] = Some s
    /\ invocations s = 2%nat.
Proof.
  eexists. split; [vm_compute; reflexivity|].
  refine (betterSetInterval_invocations 50 1
            [Continuation; TimerFired 1; Continuation; Cancel] _ _).
  vm_compute. reflexivity.
Defined.

Lemma single_timer_step (st st' : state) (e : event) :
  single_timer st -> disciplined st [e] = true -> step st e = Some st' ->
  single_timer st'.
Proof.
  unfold single_timer. destruct st as [d r t [p n] i l].
  intros Hinv Hdisc Hstep. destruct e as [|id|]; cbn in Hinv, Hdisc, Hstep.
  - apply andb_prop in Hdisc as [Hempty _]. apply bool_decide_eq_true in Hempty.
    injection Hstep as <-. unfold callback. cbn. destruct r; cbn; [|now left].
    right. exists n, d. rewrite Hempty. split; reflexivity.
  - unfold fire in Hstep. cbn in Hstep.
    destruct (p !! id) as [d1|] eqn:Hid; [|discriminate].
    injection Hstep as <-. left. cbn.
    destruct Hinv as [Hempty | (id0 & d0 & _ & Hone)].
    + rewrite Hempty, lookup_empty in Hid. discriminate.
    + rewrite Hone in Hid |- *. apply lookup_singleton_Some in Hid as [<- _].
      apply delete_singleton_eq.
  - injection Hstep as <-. left. cbn.
    destruct Hinv as [Hempty | (id0 & d0 & Ht & Hone)].
    + rewrite Hempty. destruct t; cbn; [apply delete_empty | reflexivity].
    + rewrite Ht, Hone. cbn. apply delete_singleton_eq.
Qed.

Lemma single_timer_run (es : list event) :
  forall st s, single_timer st -> disciplined st es = true -> run st es = Some s ->
  single_timer s.
Proof.
  induction es as [|e es IH]; intros st s Hinv Hdisc Hrun.
  - now injection Hrun as <-.
  - cbn [run] in Hrun. destruct (step st e) as [st1|] eqn:Hstep; [|discriminate].
    cbn [disciplined] in Hdisc. rewrite Hstep in Hdisc.
    apply andb_prop in Hdisc as [He Hrest].
    apply (IH st1 s); [| exact Hrest | exact Hrun].
    apply (single_timer_step st st1 e Hinv); [| exact Hstep].
    cbn [disciplined]. rewrite Hstep, He. reflexivity.
Qed.

(** X15: As long as the work function calls its continuation once for each
    execution, the task never has more than one timer pending, and once
    the handle is cancelled no timer is pending and the work function is
    never called again. *)
Theorem betterSetInterval_single_timer
    (delayMillis : Z) (first_id : nat) (es : list event) (s : state) :
  run (betterSetInterval delayMillis first_id) es = Some s ->
  disciplined (betterSetInterval delayMillis first_id) es = true ->
  single_timer s
  /\ (size (pending (host s)) <= 1)%nat
  /\ (forall es' s', run (cancelled s) es' = Some s' ->
        invocations s' = invocations s /\ pending (host s') = ∅).
Proof.
  intros Hrun Hdisc.
  assert (Hinv : single_timer s).
  { apply (single_timer_run es (betterSetInterval delayMillis first_id) s);
      [now left | exact Hdisc | exact Hrun]. }
  split_and!; [exact Hinv | |].
  - destruct Hinv as [-> | (id & d & _ & ->)];
      [rewrite map_size_empty | rewrite map_size_singleton]; lia.
  - intros es' s'. apply cancelled_never_invoked_again.
    intros id Hid. destruct Hinv as [Hempty | (id0 & d & Ht & Hone)].
    + rewrite Hempty, lookup_empty in Hid. destruct Hid; discriminate.
    + rewrite Hone in Hid. destruct Hid as [x Hid].
      apply lookup_singleton_Some in Hid as [<- _]. exact Ht.
Qed.

Lemma betterSetInterval_single_timer_witness :
  exists s,
    run (betterSetInterval 50 1) [Continuation; TimerFired 1; Continuation] = Some s
    /\ disciplined (betterSetInterval 50 1) [Continuation; TimerFired 1; Continuation] = true
    /\ (size (pending (host s)) <= 1)%nat.
Proof.
  eexists. split; [vm_compute; reflexivity|]. split; [vm_compute; reflexivity|].
  refine (proj1 (proj2 (betterSetInterval_single_timer 50 1
            [Continuation; TimerFired 1; Continuation] _ _ _))).
  - vm_compute. reflexivity.
  - vm_compute. reflexivity.
Defined.

(** X16: When the work function calls its continuation twice during one
    execution, two timers are started and [timeoutId] keeps only the
    second: a cancellation leaves the first one pending, and when it fires
    the work function runs once more although the task is cancelled. *)
Theorem betterSetInterval_double_continuation (s : state) :
  isRunning s = true ->
  let twice := callback (callback s) in
  let first := next_id (host s) in
  is_Some (pending (host (cancelled twice)) !! first)
  /\ exists s', step (cancelled twice) (TimerFired first) = Some s'
                /\ invocations s' = S (invocations twice)
                /\ isRunning s' = false.
Proof.
  intros Hrun twice first.
  assert (Hpending : pending (host (cancelled twice)) !! first = Some (delay s)).
  { subst twice first. unfold callback. rewrite Hrun. cbn. rewrite Hrun. cbn.
    rewrite lookup_delete_ne by lia. rewrite lookup_insert_ne by lia.
    apply lookup_insert_eq. }
  split; [eauto|].
  cbn [step]. unfold fire. rewrite Hpending. eexists. split; [reflexivity|].
  split; reflexivity.
Qed.

Lemma betterSetInterval_double_continuation_witness :
  isRunning (betterSetInterval 50 1) = true
  /\ is_Some (pending (host (cancelled (callback (callback (betterSetInterval 50 1))))) !! 1%nat).
Proof.
  split; [reflexivity|].
  exact (proj1 (betterSetInterval_double_continuation (betterSetInterval 50 1) eq_refl)).
Defined.

End RepeatingTaskRunsFacts.

Section DelayFacts.
Import Js Delay.





End DelayFacts.

Section ReadinessFailuresFacts.
Import Js ReadinessPromise ReadinessFailures.

Lemma remove_own_listeners (others : list (string * listener)) :
  remove_last ("listening"%string, OnListening)
    (remove_last ("error"%string, OnError) (others ++ own_listeners))
  = others.
Proof.
  unfold own_listeners.
  change (others ++ [("error"%string, OnError); ("listening"%string, OnListening)])
    with (others ++ [("error"%string, OnError)] ++ [("listening"%string, OnListening)]).
  rewrite app_assoc, remove_last_snoc_ne by discriminate.
  rewrite remove_last_snoc. apply remove_last_snoc.
Qed.

(** X18: When [listen] throws instead of emitting an event, the promise is
    rejected with what was thrown, but the two listeners stay registered on
    the server.  A ["listening"] event that comes later removes them and
    calls [resolve], which no longer changes the promise. *)
Theorem promisifyServerListen_listen_throws
    (others : list (string * listener)) (port : Z) (e v : value) :
  all_foreign others ->
  let st := promisifyServerListen (throwing_listen_server e) port (fresh_emitter others []) in
  let st' := later (throwing_listen_server e) [("listening"%string, v)] st in
  returned st = Rejected e
  /\ settle_calls st = [Reject e]
  /\ registered (srv st) = others ++ own_listeners
  /\ returned st' = Rejected e
  /\ settle_calls st' = [Reject e; Resolve VUndefined]
  /\ registered (srv st') = others.
Proof.
  intros Hothers st st'.
  assert (Hst : st = {| srv := {| registered := others ++ own_listeners;
                                   calls := setup_calls port;
                                   script := [] |};
                        returned := Rejected e;
                        settle_calls := [Reject e] |}).
  { subst st. unfold promisifyServerListen, executor, on_server. cbn.
    now rewrite <- app_assoc. }
  assert (Hst' : st' = {| srv := {| registered := others;
                                     calls := setup_calls port ++ cleanup_calls;
                                     script := [] |};
                          returned := Rejected e;
                          settle_calls := [Reject e; Resolve VUndefined] |}).
  { subst st'. rewrite Hst. cbn [later]. unfold emit. cbn [fst snd].
    change (listeners (throwing_listen_server e) "listening" ?s)
      with (listeners_in "listening" (registered s)).
    cbn [srv registered]. rewrite listeners_in_app.
    rewrite call_all_app_foreign by (now apply listeners_in_foreign).
    change (listeners_in "listening" own_listeners) with [OnListening].
    cbn -[remove_last own_listeners]. now rewrite remove_own_listeners. }
  rewrite Hst, Hst'. cbn. auto 10.
Qed.

Lemma promisifyServerListen_listen_throws_witness :
  all_foreign [("close"%string, Foreign 1)]
  /\ registered (srv (promisifyServerListen (throwing_listen_server (VError "EACCES")) 80
                        (fresh_emitter [("close"%string, Foreign 1)] [])))
     = [("close"%string, Foreign 1)] ++ own_listeners.
Proof.
  assert (Hothers : all_foreign [("close"%string, Foreign 1)]).
  { constructor; [reflexivity | constructor]. }
  split; [exact Hothers|].
  exact (proj1 (proj2 (proj2 (promisifyServerListen_listen_throws
           [("close"%string, Foreign 1)] 80 (VError "EACCES") VUndefined Hothers)))).
Defined.

End ReadinessFailuresFacts.

Section SequentialTraceFacts.
Import Js SequentialRunner SequentialTrace.

Lemma loop_all_fulfilled (promises : list item) (values : list value) :
  Forall2 fulfils promises values ->
  forall i results tr,
  loop i promises results tr
  = {| settles := Resolved (results ++ values); trace := tr ++ steps_from i promises |}.
Proof.
  induction 1 as [|it v promises values Hit _ IH]; intros i results tr.
  - cbn. now rewrite !app_nil_r.
  - cbn [loop steps_from]. unfold fulfils in Hit. rewrite (obtain_result 0 i) in Hit.
    destruct (obtain i it) as [acts r]. cbn [fst snd] in *. subst r.
    rewrite IH. f_equal.
    + now rewrite <- app_assoc.
    + now rewrite <- !app_assoc.
Qed.

Lemma steps_from_counts (promises : list item) :
  forall i,
  List.length (List.filter is_await (steps_from i promises)) = List.length promises
  /\ List.length (List.filter is_invoke (steps_from i promises))
     = List.length (List.filter is_function promises).
Proof.
  induction promises as [|it promises IH]; intros i; [now split|].
  cbn [steps_from]. rewrite !List.filter_app, !length_app.
  destruct (IH (S i)) as [-> ->]. destruct it; cbn; split; lia.
Qed.

(** X19: When every element is fulfilled, the run handles the elements one
    after the other: it calls the element if it is a function, suspends
    on its promise and resumes.  So every function is called exactly once,
    and the run suspends once for each element, also for promises that
    were settled from the start. *)
Theorem sequentializePromises_fulfilled_trace (promises : list item) (values : list value) :
  Forall2 fulfils promises values ->
  let tr := trace (sequentializePromises promises) in
  tr = steps_from 0 promises
  /\ List.length (List.filter is_await tr) = List.length promises
  /\ List.length (List.filter is_invoke tr) = List.length (List.filter is_function promises).
Proof.
  intros Hall tr.
  assert (Htr : tr = steps_from 0 promises).
  { subst tr. rewrite sequentializePromises_loop.
    now rewrite (loop_all_fulfilled promises values Hall). }
  split; [exact Htr|]. rewrite Htr. apply steps_from_counts.
Qed.

Lemma sequentializePromises_fulfilled_trace_witness :
  let promises := [APromise (Fulfills (VNumber 1)); AFunction (Returns (Fulfills (VNumber 2)))] in
  Forall2 fulfils promises [VNumber 1; VNumber 2]
  /\ trace (sequentializePromises promises) = steps_from 0 promises.
Proof.
  intros promises.
  assert (Hall : Forall2 fulfils promises [VNumber 1; VNumber 2]).
  { repeat constructor. }
  split; [exact Hall|].
  exact (proj1 (sequentializePromises_fulfilled_trace promises _ Hall)).
Defined.

Lemma loop_prefix_fulfilled (pre : list item) (values : list value) :
  Forall2 fulfils pre values ->
  forall i rest results tr,
  loop i (pre ++ rest) results tr
  = loop (i + List.length pre) rest (results ++ values) (tr ++ steps_from i pre).
Proof.
  induction 1 as [|it v pre values Hit _ IH]; intros i rest results tr.
  - cbn. now rewrite !app_nil_r, Nat.add_0_r.
  - cbn [app loop steps_from List.length]. unfold fulfils in Hit.
    rewrite (obtain_result 0 i) in Hit.
    destruct (obtain i it) as [acts r]. cbn [fst snd] in *. subst r.
    rewrite IH. f_equal; [lia | now rewrite <- app_assoc | now rewrite <- !app_assoc].
Qed.

Lemma steps_from_indices (promises : list item) :
  forall i a, In a (steps_from i promises) ->
  exists j, (i <= j < i + List.length promises)%nat
            /\ (a = Invoke j \/ a = Await j \/ a = Resume j).
Proof.
  induction promises as [|it promises IH]; intros i a Hin; [contradiction|].
  cbn [steps_from List.length] in *. apply in_app_or in Hin as [Hin | Hin].
  - apply obtain_actions in Hin. exists i. split; [lia | auto].
  - destruct Hin as [<- | [<- | Hin]].
    + exists i. split; [lia | auto].
    + exists i. split; [lia | auto].
    + destruct (IH (S i) a Hin) as (j & Hj & Ha). exists j. split; [lia | exact Ha].
Qed.

(** X20: The first element that is not fulfilled ends the run, whatever comes
    after it.  When its promise never settles, the returned promise never
    settles either; when it is a function that throws, the run is rejected
    with what was thrown, without a suspension on that element.  In both
    cases no function after it is called. *)
Theorem sequentializePromises_first_failure
    (pre post : list item) (values : list value) (x : item) :
  Forall2 fulfils pre values ->
  let r := sequentializePromises (pre ++ x :: post) in
  (snd (obtain 0 x) = Returns NeverSettles -> settles r = Unsettled)
  /\ (forall e, snd (obtain 0 x) = Throws e ->
        settles r = RejectedWith e /\ ~ In (Await (List.length pre)) (trace r))
  /\ (snd (obtain 0 x) = Returns NeverSettles \/ (exists e, snd (obtain 0 x) = Throws e) ->
      forall j, In (Invoke j) (trace r) -> (j <= List.length pre)%nat).
Proof.
  intros Hall r. subst r. rewrite sequentializePromises_loop.
  rewrite (loop_prefix_fulfilled pre values Hall 0 (x :: post) [] []).
  cbn [loop Nat.add app].
  rewrite !(obtain_result 0 (List.length pre) x).
  pose proof (obtain_actions (List.length pre) x) as Hacts.
  destruct (obtain (List.length pre) x) as [acts res]. cbn [fst snd] in *.
  assert (Hbound : forall j, In (Invoke j) (steps_from 0 pre ++ acts) ->
                     (j <= List.length pre)%nat).
  { intros j Hj. apply in_app_or in Hj as [Hj | Hj].
    - apply steps_from_indices in Hj as (j' & Hj' & [Ha | [Ha | Ha]]);
        [injection Ha as -> | discriminate | discriminate]. lia.
    - apply Hacts in Hj. injection Hj as ->. lia. }
  split_and!.
  - intros ->. reflexivity.
  - intros e ->. cbn [settles trace]. split; [reflexivity|].
    intros Hin. apply in_app_or in Hin as [Hin | Hin].
    + apply steps_from_indices in Hin as (j' & Hj' & [Ha | [Ha | Ha]]);
        [discriminate | injection Ha as <- | discriminate]. lia.
    + apply Hacts in Hin. discriminate.
  - intros [-> | [e ->]] j Hj; cbn [trace] in Hj.
    + rewrite app_assoc in Hj. apply in_app_or in Hj as [Hj | [Hj | []]];
        [now apply Hbound | discriminate].
    + now apply Hbound.
Qed.

Lemma sequentializePromises_first_failure_witness :
  let pre := [AFunction (Returns (Fulfills (VNumber 1)))] in
  let x := AFunction (Throws (VError "no connection")) in
  let post := [AFunction (Returns (Fulfills (VNumber 3)))] in
  Forall2 fulfils pre [VNumber 1]
  /\ snd (obtain 0 x) = Throws (VError "no connection")
  /\ settles (sequentializePromises (pre ++ x :: post)) = RejectedWith (VError "no connection").
Proof.
  intros pre x post.
  assert (Hall : Forall2 fulfils pre [VNumber 1]) by (repeat constructor).
  refine (conj Hall (conj eq_refl _)).
  exact (proj1 (proj1 (proj2 (sequentializePromises_first_failure pre post _ x Hall))
                  (VError "no connection") eq_refl)).
Defined.

End SequentialTraceFacts.
